(** * Workflow steps of the raw configuration: decoding, validation,
      normalisation and re-encoding

    A shallow embedding of [server/core/config/raw/step.go].  A step of a
    workflow is written in one of four syntaxes; the Go type [Step] keeps one
    field per syntax.  Go maps are finite maps ([gmap]) with [len] as [size];
    a nil map and an empty map are the same map here, as they are for every
    test the code makes ([len], lookup, [range]).  The order in which Go's
    [range] visits a map is not fixed by the language, so every function
    that ranges over a map takes the order as an argument. *)

From Stdlib Require Import Ascii.
From stdpp Require Import gmap strings list fin_maps sorting pretty.

(** ** The pieces of Go's library the file uses *)

(** An operand of a formatting call. *)
Inductive operand :=
| Str_ (s : string)
| Int_ (n : nat).

(** Go's [error]: the text of [errors.New], or the format and operands of
    [fmt.Errorf], rendered by [Error]. *)
Inductive error :=
| New (text : string)
| Errorf (format : string) (a : list operand).

Module fmt.
Section verbs.
(** [strconv.Quote], which [%q] applies to a string: it belongs to Go's
  library and is left open. *)
Variable quote : string → string.

Definition verb (v : ascii) (x : operand) : string :=
match x with
| Str_ s =>
    if decide (v = "q"%char) then quote s
    else if decide (v = "s"%char) then s
    else "%!" +:+ String v ("(string=" +:+ s +:+ ")")
| Int_ n =>
    if decide (v = "d"%char) then pretty n
    else "%!" +:+ String v ("(int=" +:+ pretty n +:+ ")")
end.

Fixpoint Sprintf (format : string) (a : list operand) : string :=
match format with
| EmptyString => ""
| String c rest =>
    if decide (c = "%"%char) then
      match rest with
      | EmptyString => "%!(NOVERB)"
      | String v rest' =>
          match a with
          | x :: a' => verb v x +:+ Sprintf rest' a'
          | [] => "%!" +:+ String v ("(MISSING)" +:+ Sprintf rest' [])
          end
      end
    else String c (Sprintf rest a)
end.

Definition Error (e : error) : string :=
match e with
| New text => text
| Errorf format a => Sprintf format a
end.
End verbs.
End fmt.

Module strings.
Fixpoint Join (elems : list string) (sep : string) : string :=
  match elems with
  | [] => ""
  | [x] => x
  | x :: rest => x +:+ sep +:+ Join rest sep
  end.
End strings.

Module sort.
(** [sort.Strings]: increasing order of Go's [<] on strings, which compares
    bytes, as [String.le] does. *)
Definition Strings (x : list string) : list string := merge_sort String.le x.
End sort.

Module utils.
Definition SlicesContains (slice : list string) (e : string) : bool :=
  bool_decide (e ∈ slice).
End utils.

(** The order of one [range] over a map: any order of its entries. *)
Record range_order := {
  range : ∀ V : Type, gmap string V → list (string * V);
  range_Permutation : ∀ (V : Type) (m : gmap string V), range V m ≡ₚ map_to_list m
}.
Arguments range _ {_} _.

(** A [for ... range] loop whose body either returns an error or goes on. *)
Fixpoint for_range {A : Type} (l : list A) (body : A → option error) : option error :=
  match l with
  | [] => None
  | x :: l' =>
      match body x with
      | Some err => Some err
      | None => for_range l' body
      end
  end.

(** [github.com/go-ozzo/ozzo-validation]: [Validate value (By f)] runs [f] on
    the value; the values given here (a string pointer, maps of maps and of
    strings) have no validation of their own to run afterwards. *)
Module validation.
Definition By {A : Type} (f : A → option error) : A → option error := f.
Definition Validate {A : Type} (value : A) (rule : A → option error) : option error :=
  rule value.
End validation.

(** ** Package [valid] *)

Module valid.
(** Modelled from the spec: the canonical step of package [valid], whose
    source is not part of this development.  The fields are those that
    [ToValid] fills; an absent string is Go's empty string and an absent
    slice is the empty list. *)
Record Step := {
  StepName : string;
  ExtraArgs : list string;
  RunCommand : string;
  EnvVarName : string;
  EnvVarValue : string;
  Output : string;
  RunShell : string
}.

(** Modelled from the spec: the three output modes of package [valid]. *)
Definition PostProcessRunOutputShow : string := "show".
Definition PostProcessRunOutputHide : string := "hide".
Definition PostProcessRunOutputStripRefreshing : string := "strip_refreshing".
End valid.

(** ** Package [raw] *)

Definition ExtraArgsKey : string := "extra_args".
Definition NameArgKey : string := "name".
Definition CommandArgKey : string := "command".
Definition ValueArgKey : string := "value".
Definition OutputArgKey : string := "output".
Definition RunStepName : string := "run".
Definition PlanStepName : string := "plan".
Definition ShowStepName : string := "show".
Definition PolicyCheckStepName : string := "policy_check".
Definition ApplyStepName : string := "apply".
Definition InitStepName : string := "init".
Definition EnvStepName : string := "env".
Definition MultiEnvStepName : string := "multienv".
Definition ImportStepName : string := "import".
Definition StateRmStepName : string := "state_rm".
Definition ShellArgKey : string := "shell".

Record Step := {
  Key : option string;
  CommandMap : gmap string (gmap string string);
  Map : gmap string (gmap string (list string));
  StringVal : gmap string string
}.

Definition validStepName (stepName : string) : bool :=
  bool_decide (stepName = InitStepName) ||
  bool_decide (stepName = PlanStepName) ||
  bool_decide (stepName = ApplyStepName) ||
  bool_decide (stepName = EnvStepName) ||
  bool_decide (stepName = MultiEnvStepName) ||
  bool_decide (stepName = ShowStepName) ||
  bool_decide (stepName = PolicyCheckStepName) ||
  bool_decide (stepName = ImportStepName) ||
  bool_decide (stepName = StateRmStepName).

Definition validStep (str : string) : option error :=
  if negb (validStepName str) then
    Some (Errorf "%q is not a valid step type, maybe you omitted the 'run' key" [Str_ str])
  else None.

(** The loop of the [env] case over the sorted keys: it returns at the first
    key that is not allowed and otherwise records whether [name] was seen. *)
Fixpoint envKeysLoop (argKeys : list string) (foundNameKey : bool) : error + bool :=
  match argKeys with
  | [] => inr foundNameKey
  | k :: rest =>
      if bool_decide (k ≠ NameArgKey) && bool_decide (k ≠ CommandArgKey) &&
         bool_decide (k ≠ ValueArgKey) && bool_decide (k ≠ ShellArgKey) then
        inl (Errorf "env steps only support keys %q, %q, %q and %q, found key %q"
               [Str_ NameArgKey; Str_ ValueArgKey; Str_ CommandArgKey; Str_ ShellArgKey; Str_ k])
      else envKeysLoop rest (if bool_decide (k = NameArgKey) then true else foundNameKey)
  end.

(** What a call of [ToValid] does: it returns a step or panics. *)
Inductive outcome :=
| Returns (step : valid.Step)
| Panics (msg : string).

Section Validate.
Variable o : range_order.
(** [valid.AllowedRunShellValues], owned by package [valid]. *)
Variable AllowedRunShellValues : list string.

(** [for k := range m { keys = append(keys, k) }] *)
Definition rangeKeys {V : Type} (m : gmap string V) : list string := (range o m).*1.

Definition extraArgs (elem : gmap string (gmap string (list string))) : option error :=
  let keys := sort.Strings (rangeKeys elem) in
  if decide (1 < length keys)%nat then
    Some (Errorf "step element can only contain a single key, found %d: %s"
            [Int_ (length keys); Str_ (strings.Join keys ",")])
  else
    for_range (range o elem) (λ '(stepName, args),
      if negb (validStepName stepName) then
        Some (Errorf "%q is not a valid step type" [Str_ stepName])
      else
        let argKeys := sort.Strings (rangeKeys args) in
        if decide (1 < length argKeys)%nat then
          Some (Errorf "built-in steps only support a single %s key, found %d: %s"
                  [Str_ ExtraArgsKey; Int_ (length argKeys); Str_ (strings.Join argKeys ",")])
        else
          for_range (range o args) (λ '(k, _),
            if decide (k ≠ ExtraArgsKey) then
              Some (Errorf "built-in steps only support a single %s key, found %q in step %s"
                      [Str_ ExtraArgsKey; Str_ k; Str_ stepName])
            else None)).

Definition envStep (args : gmap string string) : option error :=
  let argKeys := sort.Strings (rangeKeys args) in
  match envKeysLoop argKeys false with
  | inl err => Some err
  | inr foundNameKey =>
      if negb foundNameKey then
        Some (Errorf "env steps must have a %q key set" [Str_ NameArgKey])
      else if utils.SlicesContains argKeys ValueArgKey &&
              utils.SlicesContains argKeys CommandArgKey then
        Some (Errorf "env steps only support one of the %q or %q keys, found both"
                [Str_ ValueArgKey; Str_ CommandArgKey])
      else if utils.SlicesContains argKeys ShellArgKey &&
              negb (utils.SlicesContains argKeys CommandArgKey) then
        Some (Errorf "env steps only support %q key in combination with %q key"
                [Str_ ShellArgKey; Str_ CommandArgKey])
      else None
  end.

Definition outputCheck (stepName v : string) : option error :=
  if bool_decide (stepName = RunStepName) &&
     negb (bool_decide (v = valid.PostProcessRunOutputShow) ||
           bool_decide (v = valid.PostProcessRunOutputHide) ||
           bool_decide (v = valid.PostProcessRunOutputStripRefreshing)) then
    Some (Errorf "run step %q option must be one of %q, %q, or %q"
            [Str_ OutputArgKey; Str_ valid.PostProcessRunOutputShow;
             Str_ valid.PostProcessRunOutputHide;
             Str_ valid.PostProcessRunOutputStripRefreshing])
  else if bool_decide (stepName = MultiEnvStepName) &&
          negb (bool_decide (v = valid.PostProcessRunOutputShow) ||
                bool_decide (v = valid.PostProcessRunOutputHide)) then
    Some (Errorf "multienv step %q option must be %q or %q"
            [Str_ OutputArgKey; Str_ valid.PostProcessRunOutputShow;
             Str_ valid.PostProcessRunOutputHide])
  else None.

Definition shellCheck (v : string) : option error :=
  if negb (utils.SlicesContains AllowedRunShellValues v) then
    Some (Errorf "run step %q value %q is not supported, supported values are: [%s]"
            [Str_ ShellArgKey; Str_ v; Str_ (strings.Join AllowedRunShellValues ", ")])
  else None.

Definition runOrMultiEnvArgs (stepName : string) (args0 : gmap string string) : option error :=
  (* argsCopy: the deletions below leave the step's own map as it is *)
  let args := args0 in
  match args !! CommandArgKey with
  | None => Some (Errorf "%q step must have a %q key set" [Str_ stepName; Str_ CommandArgKey])
  | Some _ =>
      let args := delete CommandArgKey args in
      match from_option (outputCheck stepName) None (args !! OutputArgKey) with
      | Some err => Some err
      | None =>
          let args := delete OutputArgKey args in
          match from_option shellCheck None (args !! ShellArgKey) with
          | Some err => Some err
          | None =>
              let args := delete ShellArgKey args in
              if decide (0 < size args)%nat then
                let argKeys := sort.Strings (rangeKeys args) in
                Some (Errorf "%q steps only support keys %q, %q and %q, found extra keys %q"
                        [Str_ stepName; Str_ CommandArgKey; Str_ OutputArgKey;
                         Str_ ShellArgKey; Str_ (strings.Join argKeys ",")])
              else None
          end
      end
  end.

Definition envOrRunOrMultiEnvStep (elem : gmap string (gmap string string)) : option error :=
  let keys := sort.Strings (rangeKeys elem) in
  if decide (1 < length keys)%nat then
    Some (Errorf "step element can only contain a single key, found %d: %s"
            [Int_ (length keys); Str_ (strings.Join keys ",")])
  else
    match keys with
    | [] => Some (Errorf "step element must contain at least 1 key" [])
    | stepName :: _ =>
        let args := default ∅ (elem !! stepName) in
        if decide (stepName = EnvStepName) then envStep args
        else if decide (stepName = RunStepName ∨ stepName = MultiEnvStepName) then
          runOrMultiEnvArgs stepName args
        else Some (Errorf "%q is not a valid step type" [Str_ stepName])
    end.

Definition runOrMultiEnvStep (elem : gmap string string) : option error :=
  let keys := sort.Strings (rangeKeys elem) in
  if decide (1 < length keys)%nat then
    Some (Errorf "step element can only contain a single key, found %d: %s"
            [Int_ (length keys); Str_ (strings.Join keys ",")])
  else
    for_range (range o elem) (λ '(stepName, _),
      if negb (bool_decide (stepName = RunStepName) ||
               bool_decide (stepName = MultiEnvStepName)) then
        Some (Errorf "%q is not a valid step type" [Str_ stepName])
      else None).

(** [None] is Go's nil error. *)
Definition Validate (s : Step) : option error :=
  match Key s with
  | Some key => validation.Validate key (validation.By validStep)
  | None =>
      if decide (0 < size (Map s))%nat then
        validation.Validate (Map s) (validation.By extraArgs)
      else if decide (0 < size (CommandMap s))%nat then
        validation.Validate (CommandMap s) (validation.By envOrRunOrMultiEnvStep)
      else if decide (0 < size (StringVal s))%nat then
        validation.Validate (StringVal s) (validation.By runOrMultiEnvStep)
      else Some (New "step element is empty")
  end.

(** [m[k]] on a map of strings: the empty string for a missing key. *)
Definition index (m : gmap string string) (k : string) : string := default "" (m !! k).

Definition commandMapStep (stepName : string) (stepArgs : gmap string string) : valid.Step :=
  let step := {|
    valid.StepName := stepName;
    valid.ExtraArgs := [];
    valid.EnvVarName := index stepArgs NameArgKey;
    valid.RunCommand := index stepArgs CommandArgKey;
    valid.EnvVarValue := index stepArgs ValueArgKey;
    valid.Output := index stepArgs OutputArgKey;
    valid.RunShell := index stepArgs ShellArgKey |} in
  if bool_decide (valid.StepName step = RunStepName) && bool_decide (valid.Output step = "") then
    {| valid.StepName := valid.StepName step;
       valid.ExtraArgs := valid.ExtraArgs step;
       valid.EnvVarName := valid.EnvVarName step;
       valid.RunCommand := valid.RunCommand step;
       valid.EnvVarValue := valid.EnvVarValue step;
       valid.Output := valid.PostProcessRunOutputShow;
       valid.RunShell := valid.RunShell step |}
  else step.

(** The three map cases in turn; each [range] loop returns in its first
    round, and a loop over no entry falls through to the next case. *)
Definition ToValid_StringVal (s : Step) : outcome :=
  match (if decide (0 < size (StringVal s))%nat then range o (StringVal s) else []) with
  | (stepName, v) :: _ =>
      Returns {| valid.StepName := stepName; valid.ExtraArgs := [];
                 valid.RunCommand := v; valid.EnvVarName := "";
                 valid.EnvVarValue := ""; valid.Output := ""; valid.RunShell := "" |}
  | [] => Panics "step was not valid. This is a bug!"
  end.

Definition ToValid_Map (s : Step) : outcome :=
  match (if decide (0 < size (Map s))%nat then range o (Map s) else []) with
  | (stepName, stepArgs) :: _ =>
      Returns {| valid.StepName := stepName;
                 valid.ExtraArgs := default [] (stepArgs !! ExtraArgsKey);
                 valid.RunCommand := ""; valid.EnvVarName := "";
                 valid.EnvVarValue := ""; valid.Output := ""; valid.RunShell := "" |}
  | [] => ToValid_StringVal s
  end.

Definition ToValid (s : Step) : outcome :=
  match Key s with
  | Some key =>
      Returns {| valid.StepName := key; valid.ExtraArgs := [];
                 valid.RunCommand := ""; valid.EnvVarName := "";
                 valid.EnvVarValue := ""; valid.Output := ""; valid.RunShell := "" |}
  | None =>
      match (if decide (0 < size (CommandMap s))%nat then range o (CommandMap s) else []) with
      | (stepName, stepArgs) :: _ => Returns (commandMapStep stepName stepArgs)
      | [] => ToValid_Map s
      end
  end.
End Validate.

(** ** Decoding and encoding *)

(** The Go types at which [unmarshalGeneric] asks the decoder to read the
    current element, in the order of its four attempts. *)
Inductive target :=
| string_
| map_map_slice
| map_map_string
| map_string.

Definition Go (t : target) : Type :=
  match t with
  | string_ => string
  | map_map_slice => gmap string (gmap string (list string))
  | map_map_string => gmap string (gmap string string)
  | map_string => gmap string string
  end.

(** One call of [unmarshal]: the object is filled, or the decoder's error. *)
Inductive attempt (E A : Type) :=
| Decoded (a : A)
| Mismatch (err : E).
Arguments Decoded {E A} a.
Arguments Mismatch {E A} err.

Definition zeroStep : Step :=
  {| Key := None; CommandMap := ∅; Map := ∅; StringVal := ∅ |}.

(** The receiver is updated in place: the result is the receiver after the
    call and the error returned. *)
Definition unmarshalGeneric {E : Type} (unmarshal : ∀ t : target, attempt E (Go t))
    (s : Step) : Step * option E :=
  match unmarshal string_ with
  | Decoded singleString =>
      ({| Key := Some singleString; CommandMap := CommandMap s;
          Map := Map s; StringVal := StringVal s |}, None)
  | Mismatch _ =>
      match unmarshal map_map_slice with
      | Decoded step =>
          ({| Key := Key s; CommandMap := CommandMap s;
              Map := step; StringVal := StringVal s |}, None)
      | Mismatch _ =>
          match unmarshal map_map_string with
          | Decoded envStep =>
              ({| Key := Key s; CommandMap := envStep;
                  Map := Map s; StringVal := StringVal s |}, None)
          | Mismatch _ =>
              match unmarshal map_string with
              | Decoded runStep =>
                  ({| Key := Key s; CommandMap := CommandMap s;
                      Map := Map s; StringVal := runStep |}, None)
              | Mismatch err => (s, Some err)
              end
          end
      end
  end.

(** The values of type [interface{}] that [marshalGeneric] returns: nil, one
    of the three maps, or the string pointer [Key]. *)
Inductive iface :=
| nil_
| of_StringVal (m : gmap string string)
| of_Map (m : gmap string (gmap string (list string)))
| of_CommandMap (m : gmap string (gmap string string))
| of_Key (p : string).

Definition marshalGeneric (s : Step) : iface * option error :=
  if decide (size (StringVal s) ≠ 0) then (of_StringVal (StringVal s), None)
  else if decide (size (Map s) ≠ 0) then (of_Map (Map s), None)
  else if decide (size (CommandMap s) ≠ 0) then (of_CommandMap (CommandMap s), None)
  else match Key s with
       | Some key => (of_Key key, None)
       | None => (nil_, None)
       end.

(** [wrap t v] is the value [v] of type [Go t] as an [interface{}]. *)
Definition wrap (t : target) : Go t → iface :=
  match t with
  | string_ => of_Key
  | map_map_slice => of_Map
  | map_map_string => of_CommandMap
  | map_string => of_StringVal
  end.

(** *** The structured values of the decoding library

    Modelled from the spec: the generic decoding capability is an external
    library.  A structured value is a tree of strings, sequences and
    mappings; reading it at a Go type succeeds when the tree has the shape of
    the type, and writing a Go value gives the tree of the same shape. *)
#[warnings="-register-all"] Inductive node :=
| Null
| Str (s : string)
| Seq (l : list node)
| Mapping (m : gmap string node).

Definition as_string (x : node) : option string :=
  match x with Str s => Some s | _ => None end.

Definition as_slice (x : node) : option (list string) :=
  match x with Seq l => mapM as_string l | _ => None end.

Definition as_map {A : Type} (f : node → option A) (x : node) : option (gmap string A) :=
  match x with
  | Mapping m =>
      if decide (map_Forall (λ _ v, is_Some (f v)) m) then Some (omap f m) else None
  | _ => None
  end.

Definition read (t : target) : node → option (Go t) :=
  match t with
  | string_ => as_string
  | map_map_slice => as_map (as_map as_slice)
  | map_map_string => as_map (as_map as_string)
  | map_string => as_map as_string
  end.

Definition of_slice (l : list string) : node := Seq (Str <$> l).

Definition of_map {A : Type} (g : A → node) (m : gmap string A) : node := Mapping (g <$> m).

(** The tree that the encoding library writes for a value returned by
    [marshalGeneric]. *)
Definition node_of (v : iface) : node :=
  match v with
  | nil_ => Null
  | of_StringVal m => of_map Str m
  | of_Map m => of_map (of_map of_slice) m
  | of_CommandMap m => of_map (of_map Str) m
  | of_Key p => Str p
  end.

(** The error of a failed read, after [json.UnmarshalTypeError]: the kind of
    value found and the Go type it was read at. *)
Record UnmarshalTypeError := {
  Value : string;
  Type_ : target
}.

Definition kind (x : node) : string :=
  match x with
  | Null => "null"
  | Str _ => "string"
  | Seq _ => "array"
  | Mapping _ => "object"
  end.

(** The closure [unmarshal] that the decoding library hands to
    [unmarshalGeneric] for the element [x]. *)
Definition unmarshal_node (x : node) (t : target) : attempt UnmarshalTypeError (Go t) :=
  match read t x with
  | Some v => Decoded v
  | None => Mismatch {| Value := kind x; Type_ := t |}
  end.

(** Two orders of [range]: the map's own listing and its reverse. *)
Definition listing_order : range_order :=
  {| range := λ V m, map_to_list m;
     range_Permutation := λ V m, reflexivity (map_to_list m) |}.

Definition reverse_order : range_order :=
  {| range := λ V m, reverse (map_to_list m);
     range_Permutation := λ V m, reverse_Permutation (map_to_list m) |}.

(** What the specification calls the keys of a map listed sorted ascending:
    every key once, in increasing byte order. *)
Definition keys_ascending {V : Type} (m : gmap string V) (ks : list string) : Prop :=
  StronglySorted String.le ks ∧ NoDup ks ∧ ∀ k, k ∈ ks ↔ is_Some (m !! k).

(** The builtin, argument-free step names as the specification lists them. *)
Definition spec_builtin_step_names : list string :=
  ["init"; "plan"; "apply"; "show"; "policy_check"; "import"; "state_rm"].

(** A step with both the extra-args map and the attribute map filled in. *)
Definition twoMapsStep : Step :=
  {| Key := None;
     CommandMap := {[ "run" := {[ "command" := "echo" ]} ]};
     Map := {[ "plan" := ∅ ]};
     StringVal := ∅ |}.

(** The Go types that the error of a failed read names: the one type it was
    reading at. *)
Definition shapes_named (err : UnmarshalTypeError) : list target := [Type_ err].

(** ** The entry points of the two encodings *)

Definition UnmarshalYAML {E : Type} (unmarshal : ∀ t : target, attempt E (Go t))
    (s : Step) : Step * option E :=
  unmarshalGeneric unmarshal s.

Definition MarshalYAML (s : Step) : iface * option error := marshalGeneric s.

Section json.
(** [json.Unmarshal] and [json.Marshal] of Go's library: reading the bytes
    [data] at a Go type, and writing a value as bytes (a string here, the
    nil slice being the empty string). *)
Context {E : Type}.
Variable json_Unmarshal : string → ∀ t : target, attempt E (Go t).
Variable json_Marshal : iface → string * option error.

Definition UnmarshalJSON (data : string) (s : Step) : Step * option E :=
  unmarshalGeneric (λ i, json_Unmarshal data i) s.

Definition MarshalJSON (s : Step) : string * option error :=
  let '(out, err) := marshalGeneric s in
  match err with
  | Some err => ("", Some err)
  | None => json_Marshal out
  end.
End json.

(** The number of fields of a step that are filled in: [Key] when it is not
    nil, a map when it has a key. *)
Definition populated (s : Step) : nat :=
  match Key s with Some _ => 1 | None => 0 end +
  (if decide (Map s = ∅) then 0 else 1) +
  (if decide (CommandMap s = ∅) then 0 else 1) +
  (if decide (StringVal s = ∅) then 0 else 1).

(** The ten step names of the package's constants. *)
Definition stepNames : list string :=
  [InitStepName; PlanStepName; ApplyStepName; EnvStepName; MultiEnvStepName;
   ShowStepName; PolicyCheckStepName; ImportStepName; StateRmStepName; RunStepName].

(** * Properties *)

(** ** Sorting and ranging *)

Lemma Strings_Permutation (l : list string) : sort.Strings l ≡ₚ l.
Proof. apply merge_sort_Permutation. Qed.

Lemma Strings_sorted (l : list string) : StronglySorted String.le (sort.Strings l).
Proof. apply (StronglySorted_merge_sort _). Qed.

Lemma Strings_proper (l1 l2 : list string) : l1 ≡ₚ l2 → sort.Strings l1 = sort.Strings l2.
Proof.
  intros Hp. apply (StronglySorted_unique String.le); try apply Strings_sorted.
  by rewrite !Strings_Permutation.
Qed.

Lemma Strings_length (l : list string) : length (sort.Strings l) = length l.
Proof. by rewrite Strings_Permutation. Qed.

Section ranging.
Context (o : range_order) {V : Type}.
Implicit Types m : gmap string V.

Lemma rangeKeys_Permutation m : rangeKeys o m ≡ₚ (map_to_list m).*1.
Proof. unfold rangeKeys. by rewrite range_Permutation. Qed.

Lemma sorted_keys_length m : length (sort.Strings (rangeKeys o m)) = size m.
Proof.
  by rewrite Strings_length, rangeKeys_Permutation, length_fmap, length_map_to_list.
Qed.

Lemma sorted_keys_listing m :
  sort.Strings (rangeKeys o m) = sort.Strings (map_to_list m).*1.
Proof. apply Strings_proper, rangeKeys_Permutation. Qed.

Lemma sorted_keys_ascending m : keys_ascending m (sort.Strings (rangeKeys o m)).
Proof.
  split_and!.
  - apply Strings_sorted.
  - rewrite Strings_Permutation, rangeKeys_Permutation. apply NoDup_fst_map_to_list.
  - intros k. rewrite Strings_Permutation, rangeKeys_Permutation, list_elem_of_fmap.
    split.
    + intros [[k' v] [-> Hin]]. apply elem_of_map_to_list in Hin. by exists v.
    + intros [v Hv]. exists (k, v). split; [done|]. by apply elem_of_map_to_list.
Qed.

Lemma range_empty : range o (∅ : gmap string V) = [].
Proof. apply Permutation_nil_r. by rewrite range_Permutation, map_to_list_empty. Qed.

Lemma range_singleton k (v : V) : range o ({[k := v]} : gmap string V) = [(k, v)].
Proof. apply Permutation_singleton_r. by rewrite range_Permutation, map_to_list_singleton. Qed.

Lemma range_cons_lookup m k v l : range o m = (k, v) :: l → m !! k = Some v.
Proof.
  intros Hr. apply elem_of_map_to_list. rewrite <- range_Permutation, Hr. left.
Qed.

Lemma range_nonempty m : (0 < size m)%nat → ∃ k v l, range o m = (k, v) :: l.
Proof.
  intros Hs. destruct (range o m) as [|[k v] l] eqn:Hr; [|by eauto].
  pose proof (range_Permutation o V m) as Hp. rewrite Hr in Hp.
  symmetry in Hp. apply Permutation_nil_r, map_to_list_empty_iff in Hp.
  subst m. rewrite map_size_empty in Hs. lia.
Qed.
End ranging.

Lemma map_size_at_most_1 {V : Type} (m : gmap string V) :
  ¬ (1 < size m)%nat → m = ∅ ∨ ∃ k v, m = {[k := v]}.
Proof.
  intros Hs. rewrite <- length_map_to_list in Hs.
  destruct (map_to_list m) as [|[k v] [|??]] eqn:Hl; simpl in Hs; [| |lia].
  - left. by apply map_to_list_empty_iff.
  - right. exists k, v. rewrite <- (list_to_map_to_list m), Hl. done.
Qed.

(** ** The step names *)

Lemma validStepName_true (stepName : string) :
  validStepName stepName = true ↔
  stepName ∈ ["init"; "plan"; "apply"; "env"; "multienv"; "show"; "policy_check";
              "import"; "state_rm"].
Proof.
  unfold validStepName. rewrite !orb_true_iff, !bool_decide_eq_true, !elem_of_cons.
  rewrite elem_of_nil. unfold InitStepName, PlanStepName, ApplyStepName, EnvStepName,
    MultiEnvStepName, ShowStepName, PolicyCheckStepName, ImportStepName, StateRmStepName.
  tauto.
Qed.

Lemma for_range_singleton {A : Type} (x : A) (body : A → option error) :
  for_range [x] body = body x.
Proof. simpl. by destruct (body x). Qed.

Lemma Validate_Key_eq o shells s str :
  Key s = Some str → Validate o shells s = validStep str.
Proof. intros Hk. unfold Validate. by rewrite Hk. Qed.

Lemma Validate_Map_eq o shells s :
  Key s = None → Map s ≠ ∅ → Validate o shells s = extraArgs o (Map s).
Proof.
  intros Hk Hm. unfold Validate. rewrite Hk.
  apply map_size_non_empty_iff in Hm. case_decide; [done|lia].
Qed.

Lemma Validate_CommandMap_eq o shells s :
  Key s = None → Map s = ∅ → CommandMap s ≠ ∅ →
  Validate o shells s = envOrRunOrMultiEnvStep o shells (CommandMap s).
Proof.
  intros Hk Hm Hc. unfold Validate. rewrite Hk, Hm, map_size_empty.
  apply map_size_non_empty_iff in Hc. case_decide; [lia|]. case_decide; [done|lia].
Qed.

(** C2, as the specification words it, fails: the bare name [env] is not in
    the builtin set and [Validate] accepts it. *)
Lemma Validate_Key_env_not_builtin :
  ¬ (Validate listing_order []
       {| Key := Some "env"; CommandMap := ∅; Map := ∅; StringVal := ∅ |} = None
     ↔ "env" ∈ spec_builtin_step_names).
Proof.
  intros [Hin _]. specialize (Hin eq_refl).
  unfold spec_builtin_step_names in Hin.
  rewrite !elem_of_cons, elem_of_nil in Hin. intuition discriminate.
Qed.

(** C2 (amended): a step whose [Key] is set is accepted exactly when the
    string is one of the nine names of [validStepName], the seven builtin
    names and also [env] and [multienv]; every other string is rejected with
    the message that suggests the [run] key was omitted. *)
Theorem Validate_Key_valid_names o shells s str :
  Key s = Some str →
  (Validate o shells s = None ↔
   str ∈ ["init"; "plan"; "apply"; "env"; "multienv"; "show"; "policy_check";
          "import"; "state_rm"]) ∧
  (Validate o shells s ≠ None →
   Validate o shells s =
     Some (Errorf "%q is not a valid step type, maybe you omitted the 'run' key" [Str_ str]) ∧
   ∀ quote, fmt.Error quote <$> Validate o shells s =
     Some (quote str +:+ " is not a valid step type, maybe you omitted the 'run' key")).
Proof.
  intros Hk. rewrite (Validate_Key_eq _ _ _ _ Hk), <- validStepName_true.
  unfold validStep. destruct (validStepName str); simpl.
  - split; [done|]. intros []; done.
  - split; [split; discriminate|]. intros _. split; [done|]. intros quote. done.
Qed.

Lemma Validate_Key_valid_names_witness :
  Validate listing_order ["sh"]
    {| Key := Some "run"; CommandMap := ∅; Map := ∅; StringVal := ∅ |} =
  Some (Errorf "%q is not a valid step type, maybe you omitted the 'run' key" [Str_ "run"]).
Proof.
  refine (proj1 (proj2 (Validate_Key_valid_names listing_order ["sh"]
    {| Key := Some "run"; CommandMap := ∅; Map := ∅; StringVal := ∅ |} "run" _) _)).
  - reflexivity.
  - vm_compute. discriminate.
Defined.

(** ** The encoder *)

(** C4, as the specification words it, fails: with the string map empty and
    both other maps filled, the attribute map does not win. *)
Lemma marshalGeneric_attribute_map_not_first :
  ¬ (StringVal twoMapsStep = ∅ → CommandMap twoMapsStep ≠ ∅ →
     marshalGeneric twoMapsStep = (of_CommandMap (CommandMap twoMapsStep), None)).
Proof.
  intros H. assert (Hne : CommandMap twoMapsStep ≠ ∅).
  { intros He. apply (f_equal (λ m, m !! "run")) in He. vm_compute in He. discriminate. }
  specialize (H eq_refl Hne). vm_compute in H. discriminate.
Qed.

(** C4 (amended): [marshalGeneric] emits the first non-empty field in the
    order string-shorthand map, extra-args map, attribute map, bare name; a
    step with nothing filled gives nil; it never returns an error. *)
Theorem marshalGeneric_precedence key cm m sv :
  (sv ≠ ∅ →
   marshalGeneric {| Key := key; CommandMap := cm; Map := m; StringVal := sv |} =
     (of_StringVal sv, None)) ∧
  (m ≠ ∅ →
   marshalGeneric {| Key := key; CommandMap := cm; Map := m; StringVal := ∅ |} =
     (of_Map m, None)) ∧
  (cm ≠ ∅ →
   marshalGeneric {| Key := key; CommandMap := cm; Map := ∅; StringVal := ∅ |} =
     (of_CommandMap cm, None)) ∧
  marshalGeneric {| Key := key; CommandMap := ∅; Map := ∅; StringVal := ∅ |} =
    (from_option of_Key nil_ key, None) ∧
  (marshalGeneric {| Key := key; CommandMap := cm; Map := m; StringVal := sv |}).2 = None.
Proof.
  unfold marshalGeneric; simpl. rewrite !map_size_empty.
  split_and!.
  - intros H%map_size_non_empty_iff. by case_decide.
  - intros H%map_size_non_empty_iff. repeat case_decide; done.
  - intros H%map_size_non_empty_iff. repeat case_decide; done.
  - repeat case_decide; try done. by destruct key.
  - repeat case_decide; try done. by destruct key.
Qed.

Lemma marshalGeneric_precedence_witness :
  marshalGeneric twoMapsStep = (of_Map {[ "plan" := ∅ ]}, None).
Proof.
  refine (proj1 (proj2 (marshalGeneric_precedence None
    {[ "run" := {[ "command" := "echo" ]} ]} {[ "plan" := ∅ ]} ∅)) _).
  intros He. apply (f_equal (λ m, m !! "plan")) in He. vm_compute in He. discriminate.
Defined.

(** ** The decoder *)

(** C9, as the specification words it, fails: for a sequence, which has none
    of the four shapes, the error names the last Go type only. *)
Lemma unmarshalGeneric_error_names_one_shape :
  ¬ (∀ s' err, unmarshalGeneric (unmarshal_node (Seq [])) zeroStep = (s', Some err) →
     ∀ t : target, t ∈ shapes_named err).
Proof.
  intros H.
  specialize (H zeroStep {| Value := "array"; Type_ := map_string |} eq_refl string_).
  unfold shapes_named in H; simpl in H.
  apply list_elem_of_singleton in H. discriminate.
Qed.

Local Ltac read_succeeded :=
  split; [intros [=] | intros ((?&?&?&?&?&?)&?&?); discriminate].

(** C9 (amended): [unmarshalGeneric] fails exactly when the four reads, made
    in the order plain string, extra-args map, attribute map, string map,
    all fail; it then returns the decoder's error of the last read, the one
    at the string map, as it is, and leaves the step as it was. *)
Theorem unmarshalGeneric_error_is_last {E : Type}
    (unmarshal : ∀ t : target, attempt E (Go t)) (s s' : Step) (err : E) :
  unmarshalGeneric unmarshal s = (s', Some err) ↔
  (∃ e1 e2 e3, unmarshal string_ = Mismatch e1 ∧
               unmarshal map_map_slice = Mismatch e2 ∧
               unmarshal map_map_string = Mismatch e3) ∧
  unmarshal map_string = Mismatch err ∧ s' = s.
Proof.
  unfold unmarshalGeneric.
  destruct (unmarshal string_) as [v1|e1]; [read_succeeded|].
  destruct (unmarshal map_map_slice) as [v2|e2]; [read_succeeded|].
  destruct (unmarshal map_map_string) as [v3|e3]; [read_succeeded|].
  destruct (unmarshal map_string) as [v4|e4]; [read_succeeded|].
  split.
  - intros [= <- <-]. eauto 10.
  - intros (_ & [= <-] & ->). done.
Qed.

(** ** Reading a structured value and writing it back *)

Lemma as_string_inv (x : node) (s : string) : as_string x = Some s → Str s = x.
Proof. destruct x; simpl; congruence. Qed.

Lemma as_slice_inv (x : node) (l : list string) : as_slice x = Some l → of_slice l = x.
Proof.
  destruct x as [| |l0|]; simpl; try discriminate.
  intros Hm%mapM_Some. unfold of_slice. f_equal.
  induction Hm as [|y a l0 l Hy _ IH]; [done|].
  by rewrite fmap_cons, IH, (as_string_inv _ _ Hy).
Qed.

Lemma as_map_inv {A : Type} (f : node → option A) (g : A → node) (x : node)
    (m : gmap string A) :
  (∀ y a, f y = Some a → g a = y) → as_map f x = Some m → of_map g m = x.
Proof.
  intros Hfg. destruct x as [| | |m0]; simpl; try discriminate.
  case_decide as Hall; [|discriminate]. intros [= <-].
  unfold of_map. f_equal. apply map_eq. intros i.
  rewrite lookup_fmap, lookup_omap.
  destruct (m0 !! i) as [y|] eqn:Hi; simpl; [|done].
  destruct (Hall i y Hi) as [a Ha]. rewrite Ha. simpl. by rewrite (Hfg y a Ha).
Qed.

Lemma unmarshal_node_faithful (x : node) (t : target) (v : Go t) :
  unmarshal_node x t = Decoded v → node_of (wrap t v) = x.
Proof.
  unfold unmarshal_node. destruct (read t x) as [v'|] eqn:Hr; [|discriminate].
  intros [= <-]. destruct t; simpl in *.
  - by apply as_string_inv.
  - revert Hr. apply as_map_inv. intros y a. apply as_map_inv, as_slice_inv.
  - revert Hr. apply as_map_inv. intros y a. apply as_map_inv, as_string_inv.
  - revert Hr. apply as_map_inv, as_string_inv.
Qed.

(** C1, as the specification words it, fails: the empty mapping is read as
    an extra-args map with no key, and is written back as null. *)
Lemma roundtrip_empty_mapping_gives_null :
  ¬ (∀ s, unmarshalGeneric (unmarshal_node (Mapping ∅)) zeroStep = (s, None) →
     node_of (marshalGeneric s).1 = Mapping ∅).
Proof. intros H. specialize (H zeroStep eq_refl). vm_compute in H. discriminate. Qed.

(** C1 (amended): whenever the decoder gives back, at each Go type, a value
    that is written as the tree it was read from, every tree other than the
    empty mapping that [unmarshalGeneric] reads into a fresh step is written
    back by [marshalGeneric] unchanged and without error, at the Go type at
    which it was read. *)
Theorem roundtrip_nonempty {E : Type} (unmarshal : node → ∀ t : target, attempt E (Go t))
    (x : node) (s : Step) :
  (∀ y t v, unmarshal y t = Decoded v → node_of (wrap t v) = y) →
  unmarshalGeneric (unmarshal x) zeroStep = (s, None) →
  x ≠ Mapping ∅ →
  (marshalGeneric s).2 = None ∧
  node_of (marshalGeneric s).1 = x ∧
  ∃ t v, unmarshal x t = Decoded v ∧ (marshalGeneric s).1 = wrap t v.
Proof.
  intros Hfaith Hdec Hne. unfold unmarshalGeneric in Hdec.
  assert (Hsize : ∀ (A : Type) (g : A → node) (m : gmap string A),
             of_map g m = x → size m ≠ 0).
  { intros A g m <- Hs. apply Hne. unfold of_map.
    apply map_size_empty_inv in Hs. by rewrite Hs, fmap_empty. }
  destruct (unmarshal x string_) as [v1|e1] eqn:H1.
  { injection Hdec as <-. pose proof (Hfaith _ _ _ H1) as Hx. simpl in Hx.
    unfold marshalGeneric; simpl. rewrite !map_size_empty. simpl.
    split_and!; [done..|]. by exists string_, v1. }
  destruct (unmarshal x map_map_slice) as [v2|e2] eqn:H2.
  { injection Hdec as <-. pose proof (Hfaith _ _ _ H2) as Hx. simpl in Hx.
    pose proof (Hsize _ _ _ Hx) as Hs.
    unfold marshalGeneric; simpl. rewrite !map_size_empty. simpl.
    case_decide; [|done]. split_and!; [done..|]. by exists map_map_slice, v2. }
  destruct (unmarshal x map_map_string) as [v3|e3] eqn:H3.
  { injection Hdec as <-. pose proof (Hfaith _ _ _ H3) as Hx. simpl in Hx.
    pose proof (Hsize _ _ _ Hx) as Hs.
    unfold marshalGeneric; simpl. rewrite !map_size_empty. simpl.
    case_decide; [|done]. split_and!; [done..|]. by exists map_map_string, v3. }
  destruct (unmarshal x map_string) as [v4|e4] eqn:H4; [|discriminate].
  injection Hdec as <-. pose proof (Hfaith _ _ _ H4) as Hx. simpl in Hx.
  pose proof (Hsize _ _ _ Hx) as Hs.
  unfold marshalGeneric; simpl.
  case_decide; [|done]. split_and!; [done..|]. by exists map_string, v4.
Qed.

Lemma roundtrip_nonempty_witness :
  let x := Mapping {[ "env" := Mapping {[ "name" := Str "test_value"; "value" := Str "value" ]} ]} in
  ∃ s, unmarshalGeneric (unmarshal_node x) zeroStep = (s, None) ∧
       node_of (marshalGeneric s).1 = x.
Proof.
  intros x.
  exists {| Key := None;
            CommandMap := {[ "env" := {[ "name" := "test_value"; "value" := "value" ]} ]};
            Map := ∅; StringVal := ∅ |}.
  assert (Hdec : unmarshalGeneric (unmarshal_node x) zeroStep =
    ({| Key := None;
        CommandMap := {[ "env" := {[ "name" := "test_value"; "value" := "value" ]} ]};
        Map := ∅; StringVal := ∅ |}, None)) by (vm_compute; reflexivity).
  split; [exact Hdec|].
  refine (proj1 (proj2 (roundtrip_nonempty unmarshal_node x _ unmarshal_node_faithful Hdec _))).
  discriminate.
Defined.

(** ** The extra-args shape *)

Lemma extraArgs_many o (elem : gmap string (gmap string (list string))) :
  (1 < size elem)%nat →
  extraArgs o elem =
    Some (Errorf "step element can only contain a single key, found %d: %s"
            [Int_ (size elem); Str_ (strings.Join (sort.Strings (rangeKeys o elem)) ",")]).
Proof.
  intros Hs. unfold extraArgs. rewrite !sorted_keys_length. by case_decide.
Qed.

Lemma extraArgs_singleton o (stepName : string) (args : gmap string (list string)) :
  extraArgs o {[stepName := args]} =
    if negb (validStepName stepName) then
      Some (Errorf "%q is not a valid step type" [Str_ stepName])
    else if decide (1 < size args)%nat then
      Some (Errorf "built-in steps only support a single %s key, found %d: %s"
              [Str_ ExtraArgsKey; Int_ (size args);
               Str_ (strings.Join (sort.Strings (rangeKeys o args)) ",")])
    else
      for_range (range o args) (λ '(k, _),
        if decide (k ≠ ExtraArgsKey) then
          Some (Errorf "built-in steps only support a single %s key, found %q in step %s"
                  [Str_ ExtraArgsKey; Str_ k; Str_ stepName])
        else None).
Proof.
  unfold extraArgs. rewrite !sorted_keys_length, map_size_singleton.
  case_decide; [lia|]. rewrite range_singleton, for_range_singleton.
  by rewrite !sorted_keys_length.
Qed.

Lemma singleton_ne_empty {V : Type} (k : string) (v : V) : ({[k := v]} : gmap string V) ≠ ∅.
Proof. intros He. apply (f_equal (λ m, m !! k)) in He. by rewrite lookup_singleton_eq in He. Qed.

Lemma singleton_eq_inv {V : Type} (k k' : string) (v v' : V) :
  ({[k := v]} : gmap string V) = {[k' := v']} → k = k' ∧ v = v'.
Proof.
  intros He. apply (f_equal (λ m, m !! k)) in He. rewrite lookup_singleton_eq in He.
  symmetry in He. apply lookup_singleton_Some in He as [-> ->]. done.
Qed.

(** C7: the specification asks for exactly one attribute key, [extra_args],
    as the comment in [extraArgs] does (args should contain a single
    'extra_args' key); the code lets a value with no attribute key through.  For a
    builtin step written with an empty value, as in [plan: {}], the check
    [len(argKeys) > 1] does not fire and the loop over the attribute keys has
    nothing to reject, so [Validate] returns nil. *)
Theorem Validate_Map_no_attribute_key o shells cm sv :
  Validate o shells
    {| Key := None; CommandMap := cm; Map := {[ "plan" := ∅ ]}; StringVal := sv |} = None.
Proof.
  rewrite Validate_Map_eq; [|done|apply singleton_ne_empty]. simpl.
  rewrite extraArgs_singleton, map_size_empty, range_empty. reflexivity.
Qed.

(** What [extraArgs] does, case by case, on a step in the extra-args shape:
    it lets through a map with one top-level key, one of the nine names of
    [validStepName], whose value has the single attribute key [extra_args]
    or, against the comment in the source, no attribute key at all.  More
    than one key, at either level, is rejected with the keys listed sorted
    ascending; a single attribute key other than [extra_args] is rejected by
    name. *)
Theorem Validate_Map_rules o shells s :
  Key s = None → Map s ≠ ∅ →
  (Validate o shells s = None ↔
   ∃ stepName args, Map s = {[stepName := args]} ∧ validStepName stepName = true ∧
                    (args = ∅ ∨ ∃ a, args = {[ "extra_args" := a ]})) ∧
  ((1 < size (Map s))%nat →
   ∃ ks, keys_ascending (Map s) ks ∧
         Validate o shells s =
           Some (Errorf "step element can only contain a single key, found %d: %s"
                   [Int_ (size (Map s)); Str_ (strings.Join ks ",")])) ∧
  (∀ stepName args, Map s = {[stepName := args]} →
     (validStepName stepName = false →
      Validate o shells s = Some (Errorf "%q is not a valid step type" [Str_ stepName])) ∧
     (validStepName stepName = true → (1 < size args)%nat →
      ∃ ks, keys_ascending args ks ∧
            Validate o shells s =
              Some (Errorf "built-in steps only support a single %s key, found %d: %s"
                      [Str_ "extra_args"; Int_ (size args); Str_ (strings.Join ks ",")])) ∧
     (validStepName stepName = true → ∀ k a, args = {[k := a]} → k ≠ "extra_args" →
      Validate o shells s =
        Some (Errorf "built-in steps only support a single %s key, found %q in step %s"
                [Str_ "extra_args"; Str_ k; Str_ stepName]))).
Proof.
  intros Hk Hm. rewrite (Validate_Map_eq _ _ _ Hk Hm). clear Hk.
  split_and!.
  - split.
    + intros Hv. destruct (decide (1 < size (Map s))%nat) as [Hs|Hs].
      { by rewrite (extraArgs_many _ _ Hs) in Hv. }
      apply map_size_at_most_1 in Hs as [?|(stepName & args & Hs)]; [done|].
      rewrite Hs, extraArgs_singleton in Hv. exists stepName, args.
      destruct (validStepName stepName); [|done]. simpl in Hv.
      split_and!; [done..|]. case_decide as Ha; [done|].
      apply map_size_at_most_1 in Ha as [?|(k & a & ->)]; [by left|right].
      rewrite range_singleton, for_range_singleton in Hv.
      case_decide as Hne; [done|]. subst k. by exists a.
    + intros (stepName & args & -> & Hn & Ha). rewrite extraArgs_singleton, Hn. simpl.
      destruct Ha as [->|[a ->]].
      * rewrite map_size_empty, range_empty. case_decide; [lia|done].
      * rewrite map_size_singleton, range_singleton, for_range_singleton.
        case_decide; [lia|]. by case_decide.
  - intros Hs. eexists. split; [apply (sorted_keys_ascending o)|].
    by apply extraArgs_many.
  - intros stepName args ->. rewrite extraArgs_singleton. split_and!.
    + by intros ->.
    + intros -> Hs. eexists. split; [apply (sorted_keys_ascending o)|].
      simpl. by case_decide.
    + intros -> k a -> Hne. simpl.
      rewrite map_size_singleton, range_singleton, for_range_singleton.
      case_decide; [lia|]. by case_decide.
Qed.

Lemma Validate_Map_rules_witness :
  Validate listing_order ["sh"]
    {| Key := None; CommandMap := ∅;
       Map := {[ "init" := {[ "extra_args" := ["-var-file=staging.tfvars"] ]} ]};
       StringVal := ∅ |} = None.
Proof.
  refine (proj2 (proj1 (Validate_Map_rules listing_order ["sh"]
    {| Key := None; CommandMap := ∅;
       Map := {[ "init" := {[ "extra_args" := ["-var-file=staging.tfvars"] ]} ]};
       StringVal := ∅ |} _ _)) _).
  - reflexivity.
  - apply singleton_ne_empty.
  - exists "init", {[ "extra_args" := ["-var-file=staging.tfvars"] ]}.
    split_and!; [reflexivity|reflexivity|]. right. by eexists.
Defined.

(** C10: in the extra-args shape the top-level key is checked with the nine
    names of [validStepName]: a sole key [env] or [multienv] with the single
    attribute [extra_args] is accepted, as is every name of the nine and no
    other, and a sole key [run] is rejected as not a valid step type. *)
Theorem Validate_Map_step_names o shells cm sv :
  (∀ stepName a, stepName ∈ ["env"; "multienv"] →
     Validate o shells
       {| Key := None; CommandMap := cm;
          Map := {[ stepName := {[ "extra_args" := a ]} ]}; StringVal := sv |} = None) ∧
  (∀ stepName a,
     Validate o shells
       {| Key := None; CommandMap := cm;
          Map := {[ stepName := {[ "extra_args" := a ]} ]}; StringVal := sv |} = None ↔
     validStepName stepName = true) ∧
  (∀ args,
     Validate o shells
       {| Key := None; CommandMap := cm; Map := {[ "run" := args ]}; StringVal := sv |} =
     Some (Errorf "%q is not a valid step type" [Str_ "run"])).
Proof.
  assert (Hname : ∀ stepName a,
    Validate o shells
      {| Key := None; CommandMap := cm;
         Map := {[ stepName := {[ "extra_args" := a ]} ]}; StringVal := sv |} = None ↔
    validStepName stepName = true).
  { intros stepName a. rewrite Validate_Map_eq; [|done|apply singleton_ne_empty]. simpl.
    rewrite extraArgs_singleton, map_size_singleton, range_singleton, for_range_singleton.
    destruct (validStepName stepName); simpl; done. }
  split; [|split].
  - intros stepName a Hin. apply Hname, validStepName_true.
    rewrite !elem_of_cons, elem_of_nil in *. tauto.
  - done.
  - intros args. rewrite Validate_Map_eq; [|done|apply singleton_ne_empty]. simpl.
    by rewrite extraArgs_singleton.
Qed.

Lemma Validate_Map_step_names_witness :
  Validate listing_order ["sh"]
    {| Key := None; CommandMap := ∅;
       Map := {[ "multienv" := {[ "extra_args" := ["-x"] ]} ]}; StringVal := ∅ |} = None.
Proof.
  refine (proj1 (Validate_Map_step_names listing_order ["sh"] ∅ ∅) "multienv" ["-x"] _).
  apply list_elem_of_In. simpl. tauto.
Defined.

(** ** The attribute-map shape *)

Lemma Strings_singleton (k : string) : sort.Strings [k] = [k].
Proof. reflexivity. Qed.

Lemma envOrRunOrMultiEnvStep_singleton o shells (stepName : string)
    (args : gmap string string) :
  envOrRunOrMultiEnvStep o shells {[stepName := args]} =
    if decide (stepName = EnvStepName) then envStep o args
    else if decide (stepName = RunStepName ∨ stepName = MultiEnvStepName) then
      runOrMultiEnvArgs o shells stepName args
    else Some (Errorf "%q is not a valid step type" [Str_ stepName]).
Proof.
  unfold envOrRunOrMultiEnvStep. rewrite sorted_keys_length, map_size_singleton.
  case_decide; [lia|]. unfold rangeKeys. rewrite range_singleton.
  change ([(stepName, args)].*1) with [stepName]. rewrite Strings_singleton.
  by rewrite lookup_singleton_eq.
Qed.

Lemma Validate_CommandMap_singleton o shells stepName args sv :
  Validate o shells
    {| Key := None; CommandMap := {[stepName := args]}; Map := ∅; StringVal := sv |} =
  envOrRunOrMultiEnvStep o shells {[stepName := args]}.
Proof. apply Validate_CommandMap_eq; [done..|apply singleton_ne_empty]. Qed.

(** The entries of [args] left after the three deletions of the [run] case. *)
Lemma surplus_lookup (args : gmap string string) (k : string) :
  delete ShellArgKey (delete OutputArgKey (delete CommandArgKey args)) !! k =
    if decide (k ∈ ["command"; "output"; "shell"]) then None else args !! k.
Proof.
  unfold ShellArgKey, OutputArgKey, CommandArgKey.
  rewrite !lookup_delete. repeat case_decide; try done; subst;
    rewrite ?elem_of_cons, ?elem_of_nil in *; intuition congruence.
Qed.

Lemma runOrMultiEnvArgs_eq o shells stepName (args : gmap string string) :
  runOrMultiEnvArgs o shells stepName args =
    match args !! "command" with
    | None => Some (Errorf "%q step must have a %q key set" [Str_ stepName; Str_ "command"])
    | Some _ =>
        match from_option (outputCheck stepName) None (args !! "output") with
        | Some err => Some err
        | None =>
            match from_option (shellCheck shells) None (args !! "shell") with
            | Some err => Some err
            | None =>
                let rest := delete ShellArgKey (delete OutputArgKey (delete CommandArgKey args)) in
                if decide (0 < size rest)%nat then
                  Some (Errorf "%q steps only support keys %q, %q and %q, found extra keys %q"
                          [Str_ stepName; Str_ "command"; Str_ "output"; Str_ "shell";
                           Str_ (strings.Join (sort.Strings (rangeKeys o rest)) ",")])
                else None
            end
        end
    end.
Proof.
  unfold runOrMultiEnvArgs, ShellArgKey, OutputArgKey, CommandArgKey.
  by rewrite !lookup_delete_ne.
Qed.

Lemma outputCheck_None (stepName v : string) :
  stepName ∈ ["run"; "multienv"] →
  outputCheck stepName v = None ↔
  v ∈ (if decide (stepName = "run") then ["show"; "hide"; "strip_refreshing"]
       else ["show"; "hide"]).
Proof.
  intros Hn. unfold outputCheck, RunStepName, MultiEnvStepName,
    valid.PostProcessRunOutputShow, valid.PostProcessRunOutputHide,
    valid.PostProcessRunOutputStripRefreshing.
  rewrite !elem_of_cons, elem_of_nil in Hn.
  destruct Hn as [->|[->|[]]]; simpl;
    repeat (case_bool_decide; simpl); subst;
    rewrite ?elem_of_cons, ?elem_of_nil; intuition congruence.
Qed.

Lemma outputCheck_Some (stepName v : string) (err : error) :
  stepName ∈ ["run"; "multienv"] →
  outputCheck stepName v = Some err →
  err = if decide (stepName = "run") then
          Errorf "run step %q option must be one of %q, %q, or %q"
            [Str_ "output"; Str_ "show"; Str_ "hide"; Str_ "strip_refreshing"]
        else
          Errorf "multienv step %q option must be %q or %q"
            [Str_ "output"; Str_ "show"; Str_ "hide"].
Proof.
  intros Hn. unfold outputCheck, RunStepName, MultiEnvStepName.
  rewrite !elem_of_cons, elem_of_nil in Hn.
  destruct Hn as [->|[->|[]]]; simpl;
    repeat (case_bool_decide; simpl); repeat case_decide; try congruence; try done;
    by intros [= <-].
Qed.

Lemma shellCheck_None (shells : list string) (v : string) :
  shellCheck shells v = None ↔ v ∈ shells.
Proof.
  unfold shellCheck, utils.SlicesContains. case_bool_decide; simpl; split; done.
Qed.

Lemma surplus_nonempty (args : gmap string string) :
  (0 < size (delete ShellArgKey (delete OutputArgKey (delete CommandArgKey args))))%nat ↔
  ∃ k, is_Some (args !! k) ∧ k ∉ ["command"; "output"; "shell"].
Proof.
  set (rest := delete _ _). split.
  - intros Hs. destruct (map_choose rest) as (k & x & Hk).
    { apply map_size_non_empty_iff. lia. }
    unfold rest in Hk. rewrite surplus_lookup in Hk. case_decide; [done|]. eauto.
  - intros (k & [x Hk] & Hnot).
    assert (rest !! k = Some x) as Hr.
    { unfold rest. rewrite surplus_lookup. by case_decide. }
    assert (rest ≠ ∅) as Hne by (intros He; by rewrite He, lookup_empty in Hr).
    apply map_size_non_empty_iff in Hne. lia.
Qed.

Lemma surplus_keys_ascending o (args : gmap string string) :
  let ks := sort.Strings
    (rangeKeys o (delete ShellArgKey (delete OutputArgKey (delete CommandArgKey args)))) in
  StronglySorted String.le ks ∧ NoDup ks ∧
  ∀ k, k ∈ ks ↔ is_Some (args !! k) ∧ k ∉ ["command"; "output"; "shell"].
Proof.
  intros ks. destruct (sorted_keys_ascending o
    (delete ShellArgKey (delete OutputArgKey (delete CommandArgKey args)))) as (Hs & Hd & Hk).
  split_and!; [done..|]. intros k. fold ks in Hk. rewrite Hk, surplus_lookup.
  case_decide; split; try done.
  - by intros [_ ?].
  - by intros [? _].
Qed.

Lemma surplus_empty (args : gmap string string) :
  ¬ (0 < size (delete ShellArgKey (delete OutputArgKey (delete CommandArgKey args))))%nat ↔
  ∀ k, is_Some (args !! k) → k ∈ ["command"; "output"; "shell"].
Proof.
  rewrite surplus_nonempty. split.
  - intros Hno k Hk. destruct (decide (k ∈ ["command"; "output"; "shell"])); [done|].
    destruct Hno; eauto.
  - intros Hall (k & Hk & Hnot). by apply Hnot, Hall.
Qed.

Lemma outputCheck_option (stepName : string) (output : option string) :
  stepName ∈ ["run"; "multienv"] →
  from_option (outputCheck stepName) None output = None ↔
  ∀ v, output = Some v →
       v ∈ (if decide (stepName = "run") then ["show"; "hide"; "strip_refreshing"]
            else ["show"; "hide"]).
Proof.
  intros Hn. destruct output as [vo|]; simpl; [|done].
  rewrite (outputCheck_None _ _ Hn). split.
  - by intros H v [= <-].
  - intros H. by apply H.
Qed.

Lemma shellCheck_option (shells : list string) (shell : option string) :
  from_option (shellCheck shells) None shell = None ↔ ∀ v, shell = Some v → v ∈ shells.
Proof.
  destruct shell as [vs|]; simpl; [|done]. rewrite shellCheck_None. split.
  - by intros H v [= <-].
  - intros H. by apply H.
Qed.

Lemma runOrMultiEnvArgs_None o shells stepName (args : gmap string string) :
  stepName ∈ ["run"; "multienv"] →
  runOrMultiEnvArgs o shells stepName args = None ↔
  is_Some (args !! "command") ∧
  (∀ v, args !! "output" = Some v →
        v ∈ (if decide (stepName = "run") then ["show"; "hide"; "strip_refreshing"]
             else ["show"; "hide"])) ∧
  (∀ v, args !! "shell" = Some v → v ∈ shells) ∧
  (∀ k, is_Some (args !! k) → k ∈ ["command"; "output"; "shell"]).
Proof.
  intros Hn. rewrite runOrMultiEnvArgs_eq, <- (outputCheck_option _ _ Hn),
    <- shellCheck_option, <- surplus_empty. cbv zeta.
  destruct (args !! "command") as [c|]; [|split; [done|by intros [[] _]]].
  destruct (from_option (outputCheck stepName) None (args !! "output"));
    [split; [done|by intros (_ & ? & _)]|].
  destruct (from_option (shellCheck shells) None (args !! "shell"));
    [split; [done|by intros (_ & _ & ? & _)]|].
  case_decide; split; try done. by intros (_ & _ & _ & ?).
Qed.

Lemma run_multienv_names (stepName : string) :
  stepName ∈ ["run"; "multienv"] →
  stepName ≠ EnvStepName ∧ (stepName = RunStepName ∨ stepName = MultiEnvStepName).
Proof.
  rewrite !elem_of_cons, elem_of_nil. unfold EnvStepName, RunStepName, MultiEnvStepName.
  intuition congruence.
Qed.

Lemma Validate_run_multienv_eq o shells stepName args sv :
  stepName ∈ ["run"; "multienv"] →
  Validate o shells
    {| Key := None; CommandMap := {[stepName := args]}; Map := ∅; StringVal := sv |} =
  runOrMultiEnvArgs o shells stepName args.
Proof.
  intros [Hne Hrm]%run_multienv_names.
  rewrite Validate_CommandMap_singleton, envOrRunOrMultiEnvStep_singleton.
  by rewrite (decide_False _ _ Hne), (decide_True _ _ Hrm).
Qed.

(** C5: a step in the attribute-map shape with the sole key [run] or
    [multienv] is accepted exactly when [command] is present, [output], if
    present, is [show], [hide] or [strip_refreshing] for [run] and [show] or
    [hide] for [multienv], [shell], if present, is in the allow-list, and no
    other attribute is present.  Otherwise the first rule broken, in this
    order, is reported, and surplus keys are listed sorted ascending. *)
Theorem Validate_run_multienv_rules o shells stepName args sv :
  stepName ∈ ["run"; "multienv"] →
  let s := {| Key := None; CommandMap := {[stepName := args]}; Map := ∅; StringVal := sv |} in
  let outputs := if decide (stepName = "run") then ["show"; "hide"; "strip_refreshing"]
                 else ["show"; "hide"] in
  let known := ["command"; "output"; "shell"] in
  (Validate o shells s = None ↔
   is_Some (args !! "command") ∧
   (∀ v, args !! "output" = Some v → v ∈ outputs) ∧
   (∀ v, args !! "shell" = Some v → v ∈ shells) ∧
   (∀ k, is_Some (args !! k) → k ∈ known)) ∧
  (args !! "command" = None →
   Validate o shells s =
     Some (Errorf "%q step must have a %q key set" [Str_ stepName; Str_ "command"])) ∧
  (is_Some (args !! "command") →
   ∀ v, args !! "output" = Some v → v ∉ outputs →
   Validate o shells s =
     Some (if decide (stepName = "run") then
             Errorf "run step %q option must be one of %q, %q, or %q"
               [Str_ "output"; Str_ "show"; Str_ "hide"; Str_ "strip_refreshing"]
           else
             Errorf "multienv step %q option must be %q or %q"
               [Str_ "output"; Str_ "show"; Str_ "hide"])) ∧
  (is_Some (args !! "command") →
   (∀ v, args !! "output" = Some v → v ∈ outputs) →
   ∀ v, args !! "shell" = Some v → v ∉ shells →
   Validate o shells s =
     Some (Errorf "run step %q value %q is not supported, supported values are: [%s]"
             [Str_ "shell"; Str_ v; Str_ (strings.Join shells ", ")])) ∧
  (is_Some (args !! "command") →
   (∀ v, args !! "output" = Some v → v ∈ outputs) →
   (∀ v, args !! "shell" = Some v → v ∈ shells) →
   (∃ k, is_Some (args !! k) ∧ k ∉ known) →
   ∃ ks, StronglySorted String.le ks ∧ NoDup ks ∧
         (∀ k, k ∈ ks ↔ is_Some (args !! k) ∧ k ∉ known) ∧
         Validate o shells s =
           Some (Errorf "%q steps only support keys %q, %q and %q, found extra keys %q"
                   [Str_ stepName; Str_ "command"; Str_ "output"; Str_ "shell";
                    Str_ (strings.Join ks ",")])).
Proof.
  intros Hn s outputs known. subst s.
  rewrite (Validate_run_multienv_eq _ _ _ _ _ Hn).
  split; [by apply runOrMultiEnvArgs_None|].
  rewrite runOrMultiEnvArgs_eq.
  pose proof (λ v, outputCheck_None stepName v Hn) as Hout.
  pose proof (λ v e, outputCheck_Some stepName v e Hn) as Hout'.
  pose proof (outputCheck_option stepName (args !! "output") Hn) as Hoc.
  pose proof (shellCheck_option shells (args !! "shell")) as Hsc.
  pose proof (surplus_nonempty args) as Hrest.
  pose proof (surplus_keys_ascending o args) as Hks.
  cbv zeta in *. fold outputs in Hout, Hoc. fold known in Hrest, Hks.
  set (rest := delete ShellArgKey _) in *.
  split_and!.
  - by intros ->.
  - intros [c ->] v Hv Hnot. rewrite Hv. simpl.
    destruct (outputCheck stepName v) as [e|] eqn:Ho.
    + by rewrite (Hout' _ _ Ho).
    + by apply Hout in Ho.
  - intros [c ->] Hvo v Hv Hnot. apply Hoc in Hvo. rewrite Hvo, Hv. simpl.
    unfold shellCheck at 1, utils.SlicesContains.
    by rewrite bool_decide_eq_false_2.
  - intros [c ->] Hvo Hvs Hk. apply Hoc in Hvo. apply Hsc in Hvs. rewrite Hvo, Hvs.
    apply Hrest in Hk. rewrite (decide_True _ _ Hk).
    eexists. destruct Hks as (? & ? & ?). split_and!; [done..|]. done.
Qed.

Lemma Validate_run_multienv_rules_witness :
  Validate listing_order ["sh"; "bash"]
    {| Key := None;
       CommandMap := {[ "run" := {[ "command" := "echo hi"; "output" := "bogus" ]} ]};
       Map := ∅; StringVal := ∅ |} =
  Some (Errorf "run step %q option must be one of %q, %q, or %q"
          [Str_ "output"; Str_ "show"; Str_ "hide"; Str_ "strip_refreshing"]).
Proof.
  refine (proj1 (proj2 (proj2 (Validate_run_multienv_rules listing_order ["sh"; "bash"]
    "run" {[ "command" := "echo hi"; "output" := "bogus" ]} ∅ _))) _ "bogus" _ _).
  - apply list_elem_of_In. simpl. tauto.
  - vm_compute. eauto.
  - vm_compute. reflexivity.
  - intros Hin. apply list_elem_of_In in Hin. simpl in Hin.
    repeat destruct Hin as [Hin|Hin]; try discriminate Hin. exact Hin.
Defined.

(** *** The [env] case *)

Lemma envKeysLoop_allowed (l : list string) (b : bool) :
  Forall (λ k, k ∈ ["name"; "command"; "value"; "shell"]) l →
  envKeysLoop l b = inr (b || bool_decide ("name" ∈ l)).
Proof.
  intros Hall. revert b. induction Hall as [|k l Hk _ IH]; intros b; simpl.
  - by rewrite orb_false_r.
  - unfold NameArgKey, CommandArgKey, ValueArgKey, ShellArgKey in *.
    rewrite !elem_of_cons, elem_of_nil in Hk.
    rewrite IH. repeat (case_bool_decide; simpl); subst; try done;
      rewrite ?elem_of_cons in *; try (destruct b; done); try tauto; intuition congruence.
Qed.

Lemma envKeysLoop_first_other (l1 l2 : list string) (k : string) (b : bool) :
  Forall (λ k, k ∈ ["name"; "command"; "value"; "shell"]) l1 →
  k ∉ ["name"; "command"; "value"; "shell"] →
  envKeysLoop (l1 ++ k :: l2) b =
    inl (Errorf "env steps only support keys %q, %q, %q and %q, found key %q"
           [Str_ "name"; Str_ "value"; Str_ "command"; Str_ "shell"; Str_ k]).
Proof.
  intros Hall Hk. revert b. induction Hall as [|k' l1 Hk' _ IH]; intros b; simpl.
  - unfold NameArgKey, CommandArgKey, ValueArgKey, ShellArgKey in *.
    rewrite !elem_of_cons, elem_of_nil in Hk.
    repeat (case_bool_decide; simpl); try done; subst; tauto.
  - unfold NameArgKey, CommandArgKey, ValueArgKey, ShellArgKey in *.
    rewrite !elem_of_cons, elem_of_nil in Hk'.
    rewrite IH. repeat (case_bool_decide; simpl); try done; intuition congruence.
Qed.

Lemma Forall_or_first {A : Type} (P : A → Prop) `{∀ x, Decision (P x)} (l : list A) :
  Forall P l ∨ ∃ l1 x l2, l = l1 ++ x :: l2 ∧ Forall P l1 ∧ ¬ P x.
Proof.
  induction l as [|x l IH]; [by left|].
  destruct (decide (P x)) as [Hx|Hx].
  - destruct IH as [IH|(l1 & y & l2 & -> & Hl1 & Hy)].
    + left. by constructor.
    + right. exists (x :: l1), y, l2. split_and!; [done| by constructor |done].
  - right. exists [], x, l. split_and!; [done|constructor|done].
Qed.

(** C6: a step in the attribute-map shape with the sole key [env] is
    accepted exactly when every attribute key is one of [name], [command],
    [value], [shell], [name] is present, [value] and [command] are not both
    present, and [shell] comes only with [command].  Otherwise the first
    rule broken, in this order, is reported: the least key that is not
    allowed, the missing [name], the pair [value] and [command], or [shell]
    without [command]. *)
Theorem Validate_env_rules o shells args sv :
  let s := {| Key := None; CommandMap := {[ "env" := args ]}; Map := ∅; StringVal := sv |} in
  let allowed := ["name"; "command"; "value"; "shell"] in
  (Validate o shells s = None ↔
   (∀ k, is_Some (args !! k) → k ∈ allowed) ∧
   is_Some (args !! "name") ∧
   ¬ (is_Some (args !! "value") ∧ is_Some (args !! "command")) ∧
   (is_Some (args !! "shell") → is_Some (args !! "command"))) ∧
  ((∃ k, is_Some (args !! k) ∧ k ∉ allowed) →
   ∃ k, is_Some (args !! k) ∧ (k ∉ allowed) ∧
        (∀ k', is_Some (args !! k') → k' ∉ allowed → String.le k k') ∧
        Validate o shells s =
          Some (Errorf "env steps only support keys %q, %q, %q and %q, found key %q"
                  [Str_ "name"; Str_ "value"; Str_ "command"; Str_ "shell"; Str_ k])) ∧
  ((∀ k, is_Some (args !! k) → k ∈ allowed) → args !! "name" = None →
   Validate o shells s = Some (Errorf "env steps must have a %q key set" [Str_ "name"])) ∧
  ((∀ k, is_Some (args !! k) → k ∈ allowed) → is_Some (args !! "name") →
   is_Some (args !! "value") → is_Some (args !! "command") →
   Validate o shells s =
     Some (Errorf "env steps only support one of the %q or %q keys, found both"
             [Str_ "value"; Str_ "command"])) ∧
  ((∀ k, is_Some (args !! k) → k ∈ allowed) → is_Some (args !! "name") →
   is_Some (args !! "shell") → args !! "command" = None →
   Validate o shells s =
     Some (Errorf "env steps only support %q key in combination with %q key"
             [Str_ "shell"; Str_ "command"])).
Proof.
  intros s allowed. subst s.
  rewrite Validate_CommandMap_singleton, envOrRunOrMultiEnvStep_singleton.
  rewrite decide_True by done. unfold envStep.
  destruct (sorted_keys_ascending o args) as (Hsorted & _ & Hkeys).
  set (ks := sort.Strings (rangeKeys o args)) in *.
  assert (Hc : ∀ k, utils.SlicesContains ks k = true ↔ is_Some (args !! k)).
  { intros k. unfold utils.SlicesContains. by rewrite bool_decide_eq_true. }
  assert (Hc' : ∀ k, utils.SlicesContains ks k = false ↔ args !! k = None).
  { intros k. rewrite eq_None_not_Some, <- Hc. by destruct (utils.SlicesContains ks k). }
  assert (Hall : Forall (λ k, k ∈ allowed) ks ↔ ∀ k, is_Some (args !! k) → k ∈ allowed).
  { rewrite Forall_forall. by setoid_rewrite Hkeys. }
  destruct (Forall_or_first (λ k, k ∈ allowed) ks) as [Hok|(l1 & k & l2 & Hsplit & Hl1 & Hk)].
  - rewrite (envKeysLoop_allowed _ _ Hok). simpl.
    change (bool_decide ("name" ∈ ks)) with (utils.SlicesContains ks "name").
    unfold ValueArgKey, CommandArgKey, ShellArgKey.
    pose proof (Hc "name") as Hn. pose proof (Hc "value") as Hv.
    pose proof (Hc "command") as Hcm. pose proof (Hc "shell") as Hs.
    pose proof (Hc' "name") as Hn'. pose proof (Hc' "command") as Hcm'.
    pose proof (proj1 Hall Hok) as Hok'.
    split_and!.
    + rewrite <- Hn, <- Hv, <- Hcm, <- Hs.
      destruct (utils.SlicesContains ks "name"), (utils.SlicesContains ks "value"),
        (utils.SlicesContains ks "command"), (utils.SlicesContains ks "shell");
        simpl; split; try done; try (intros _; split_and!; try done; intuition discriminate);
        intros (_ & ? & ? & ?); intuition discriminate.
    + intros (k & Hk1 & Hk2). destruct Hk2. by apply Hok'.
    + intros _ Hnone. apply Hn' in Hnone. by rewrite Hnone.
    + intros _ ->%Hn ->%Hv ->%Hcm. done.
    + intros _ ->%Hn ->%Hs ->%Hcm'. simpl. by rewrite andb_false_r.
  - assert (Hkin : is_Some (args !! k)).
    { apply Hkeys. rewrite Hsplit. apply elem_of_app. right. left. }
    assert (Hbad : ¬ ∀ k, is_Some (args !! k) → k ∈ allowed) by (intros H; by apply Hk, H).
    rewrite Hsplit, (envKeysLoop_first_other _ _ _ _ Hl1 Hk).
    split_and!; try (intros; done).
    + split; [done|]. by intros [? _].
    + intros _. exists k. split_and!; [done..| |done].
      intros k' Hk' Hnot. apply Hkeys in Hk'. rewrite Hsplit in Hk', Hsorted.
      apply elem_of_app in Hk' as [Hk'|Hk'].
      { rewrite Forall_forall in Hl1. destruct Hnot. by apply Hl1. }
      apply StronglySorted_app_1_r in Hsorted.
      apply elem_of_cons in Hk' as [->|Hk']; [done|].
      apply StronglySorted_inv in Hsorted as [_ Hle].
      rewrite Forall_forall in Hle. by apply Hle.
Qed.

Lemma Validate_env_rules_witness :
  Validate listing_order ["sh"]
    {| Key := None;
       CommandMap := {[ "env" := {[ "name" := "x"; "value" := "v"; "command" := "c" ]} ]};
       Map := ∅; StringVal := ∅ |} =
  Some (Errorf "env steps only support one of the %q or %q keys, found both"
          [Str_ "value"; Str_ "command"]).
Proof.
  refine (proj1 (proj2 (proj2 (proj2 (Validate_env_rules listing_order ["sh"]
    {[ "name" := "x"; "value" := "v"; "command" := "c" ]} ∅)))) _ _ _ _).
  - intros k [v Hk]. apply elem_of_map_to_list in Hk. vm_compute in Hk.
    apply list_elem_of_In in Hk. simpl in Hk.
    repeat destruct Hk as [Hk|Hk]; try (injection Hk as <- <-); try done;
      apply list_elem_of_In; simpl; tauto.
  - vm_compute. eauto.
  - vm_compute. eauto.
  - vm_compute. eauto.
Defined.

(** ** The normaliser *)

Lemma ToValid_Key o s key :
  Key s = Some key →
  ToValid o s =
    Returns {| valid.StepName := key; valid.ExtraArgs := []; valid.RunCommand := "";
               valid.EnvVarName := ""; valid.EnvVarValue := ""; valid.Output := "";
               valid.RunShell := "" |}.
Proof. intros Hk. unfold ToValid. by rewrite Hk. Qed.

Lemma ToValid_CommandMap_singleton o s stepName stepArgs :
  Key s = None → CommandMap s = {[stepName := stepArgs]} →
  ToValid o s = Returns (commandMapStep stepName stepArgs).
Proof.
  intros Hk Hc. unfold ToValid. rewrite Hk, Hc, map_size_singleton, range_singleton.
  by case_decide; [|lia].
Qed.

Lemma ToValid_Map_singleton o s stepName stepArgs :
  Key s = None → CommandMap s = ∅ → Map s = {[stepName := stepArgs]} →
  ToValid o s =
    Returns {| valid.StepName := stepName;
               valid.ExtraArgs := default [] (stepArgs !! ExtraArgsKey);
               valid.RunCommand := ""; valid.EnvVarName := ""; valid.EnvVarValue := "";
               valid.Output := ""; valid.RunShell := "" |}.
Proof.
  intros Hk Hc Hm. unfold ToValid, ToValid_Map.
  rewrite Hk, Hc, Hm, map_size_empty, map_size_singleton, range_singleton.
  case_decide; [lia|]. by case_decide; [|lia].
Qed.

Lemma ToValid_StringVal_singleton o s stepName v :
  Key s = None → CommandMap s = ∅ → Map s = ∅ → StringVal s = {[stepName := v]} →
  ToValid o s =
    Returns {| valid.StepName := stepName; valid.ExtraArgs := []; valid.RunCommand := v;
               valid.EnvVarName := ""; valid.EnvVarValue := ""; valid.Output := "";
               valid.RunShell := "" |}.
Proof.
  intros Hk Hc Hm Hv. unfold ToValid, ToValid_Map, ToValid_StringVal.
  rewrite Hk, Hc, Hm, Hv, !map_size_empty, map_size_singleton, range_singleton.
  case_decide; [lia|]. by case_decide; [|lia].
Qed.

(** C8: for an accepted step in the attribute-map shape with the sole key
    [run] or [multienv], [ToValid] takes the command from [command], the
    shell from [shell] if present, and the output mode from [output] if
    present; without [output] the mode is [show] for [run] and is left
    empty for [multienv].  Nothing else is set. *)
Theorem ToValid_run_multienv o shells stepName args sv :
  stepName ∈ ["run"; "multienv"] →
  let s := {| Key := None; CommandMap := {[stepName := args]}; Map := ∅; StringVal := sv |} in
  Validate o shells s = None →
  ∃ command, args !! "command" = Some command ∧
    ToValid o s =
      Returns {| valid.StepName := stepName;
                 valid.ExtraArgs := [];
                 valid.RunCommand := command;
                 valid.EnvVarName := "";
                 valid.EnvVarValue := "";
                 valid.Output :=
                   match args !! "output" with
                   | Some v => v
                   | None => if decide (stepName = "run") then "show" else ""
                   end;
                 valid.RunShell := default "" (args !! "shell") |}.
Proof.
  intros Hn s Hv. subst s. rewrite (Validate_run_multienv_eq _ _ _ _ _ Hn) in Hv.
  apply (runOrMultiEnvArgs_None _ _ _ _ Hn) in Hv as ([command Hc] & Ho & _ & Hknown).
  exists command. split; [done|].
  rewrite (ToValid_CommandMap_singleton _ _ stepName args) by done.
  f_equal. unfold commandMapStep, index, NameArgKey, CommandArgKey, ValueArgKey,
    OutputArgKey, ShellArgKey, RunStepName. simpl.
  assert (args !! "name" = None) as ->.
  { apply eq_None_not_Some. intros H%Hknown.
    rewrite !elem_of_cons, elem_of_nil in H. intuition discriminate. }
  assert (args !! "value" = None) as ->.
  { apply eq_None_not_Some. intros H%Hknown.
    rewrite !elem_of_cons, elem_of_nil in H. intuition discriminate. }
  rewrite Hc. simpl.
  destruct (args !! "output") as [v|] eqn:Hout; simpl.
  - specialize (Ho v eq_refl).
    assert (v ≠ "") as Hne.
    { intros ->. case_decide; rewrite !elem_of_cons, elem_of_nil in Ho;
        intuition discriminate. }
    rewrite (bool_decide_eq_false_2 _ Hne), andb_false_r. done.
  - case_bool_decide; case_decide; done.
Qed.

Lemma ToValid_run_multienv_witness :
  ToValid listing_order
    {| Key := None; CommandMap := {[ "multienv" := {[ "command" := "envs.sh" ]} ]};
       Map := ∅; StringVal := ∅ |} =
  Returns {| valid.StepName := "multienv"; valid.ExtraArgs := [];
             valid.RunCommand := "envs.sh"; valid.EnvVarName := "";
             valid.EnvVarValue := ""; valid.Output := ""; valid.RunShell := "" |}.
Proof.
  destruct (ToValid_run_multienv listing_order ["sh"] "multienv"
              {[ "command" := "envs.sh" ]} ∅) as (command & Hc & Hv).
  - apply list_elem_of_In. simpl. tauto.
  - vm_compute. reflexivity.
  - vm_compute in Hc. injection Hc as <-. exact Hv.
Defined.

Lemma extraArgs_None_singleton o (elem : gmap string (gmap string (list string))) :
  elem ≠ ∅ → extraArgs o elem = None → ∃ k v, elem = {[k := v]}.
Proof.
  intros Hne Hv. destruct (decide (1 < size elem)%nat) as [Hs|Hs].
  { by rewrite (extraArgs_many _ _ Hs) in Hv. }
  by apply map_size_at_most_1 in Hs as [?|?].
Qed.

Lemma envOrRunOrMultiEnvStep_None_singleton o shells (elem : gmap string (gmap string string)) :
  elem ≠ ∅ → envOrRunOrMultiEnvStep o shells elem = None → ∃ k v, elem = {[k := v]}.
Proof.
  intros Hne Hv. unfold envOrRunOrMultiEnvStep in Hv.
  rewrite sorted_keys_length in Hv. case_decide as Hs; [done|].
  by apply map_size_at_most_1 in Hs as [?|?].
Qed.

Lemma runOrMultiEnvStep_None_singleton o (elem : gmap string string) :
  elem ≠ ∅ → runOrMultiEnvStep o elem = None → ∃ k v, elem = {[k := v]}.
Proof.
  intros Hne Hv. unfold runOrMultiEnvStep in Hv.
  rewrite sorted_keys_length in Hv. case_decide as Hs; [done|].
  by apply map_size_at_most_1 in Hs as [?|?].
Qed.

(** The field that [Validate] examined when it accepts a step holds exactly
    one key. *)
Lemma Validate_None_cases o shells s :
  Validate o shells s = None →
  (∃ key, Key s = Some key) ∨
  (Key s = None ∧ ∃ k v, Map s = {[k := v]}) ∨
  (Key s = None ∧ Map s = ∅ ∧ ∃ k v, CommandMap s = {[k := v]}) ∨
  (Key s = None ∧ Map s = ∅ ∧ CommandMap s = ∅ ∧ ∃ k v, StringVal s = {[k := v]}).
Proof.
  unfold Validate, validation.Validate, validation.By.
  destruct (Key s) as [key|]; [by eauto|]. intros Hv. right.
  case_decide as Hm.
  { left. split; [done|]. eapply extraArgs_None_singleton; [|done].
    apply map_size_non_empty_iff. lia. }
  assert (Map s = ∅) by (apply map_size_empty_iff; lia). right.
  case_decide as Hc.
  { left. split_and!; [done..|]. eapply envOrRunOrMultiEnvStep_None_singleton; [|done].
    apply map_size_non_empty_iff. lia. }
  assert (CommandMap s = ∅) by (apply map_size_empty_iff; lia). right.
  case_decide as Hsv; [|done].
  split_and!; [done..|]. eapply runOrMultiEnvStep_None_singleton; [|done].
  apply map_size_non_empty_iff. lia.
Qed.

Lemma ToValid_returns o s :
  Key s ≠ None ∨ CommandMap s ≠ ∅ ∨ Map s ≠ ∅ ∨ StringVal s ≠ ∅ →
  ∃ step, ToValid o s = Returns step.
Proof.
  intros Hne. unfold ToValid, ToValid_Map, ToValid_StringVal.
  destruct (Key s) as [key|]; [by eauto|].
  destruct (decide (0 < size (CommandMap s))%nat) as [Hc|Hc].
  { destruct (range_nonempty o _ Hc) as (k & v & l & ->). eauto. }
  destruct (decide (0 < size (Map s))%nat) as [Hm|Hm].
  { destruct (range_nonempty o _ Hm) as (k & v & l & ->). eauto. }
  destruct (decide (0 < size (StringVal s))%nat) as [Hv|Hv].
  { destruct (range_nonempty o _ Hv) as (k & v & l & ->). eauto. }
  destruct Hne as [?|[H|[H|H]]]; [done|apply map_size_non_empty_iff in H; lia..].
Qed.

Lemma commandMapStep_StepName (stepName : string) (stepArgs : gmap string string) :
  valid.StepName (commandMapStep stepName stepArgs) = stepName.
Proof. unfold commandMapStep. by case_match. Qed.

(** ** The validator does not depend on the order of [range]

    Every list of keys is sorted before it is used, and the loops that read
    entries run over maps with at most one key. *)

Lemma range_at_most_1 o o' {V : Type} (m : gmap string V) :
  ¬ (1 < size m)%nat → range o m = range o' m.
Proof.
  intros [->|(k & v & ->)]%map_size_at_most_1.
  - by rewrite !range_empty.
  - by rewrite !range_singleton.
Qed.

Lemma extraArgs_order_irrelevant o o' elem : extraArgs o elem = extraArgs o' elem.
Proof.
  destruct (decide (1 < size elem)%nat) as [Hs|Hs].
  { rewrite !extraArgs_many by done. by rewrite !sorted_keys_listing. }
  apply map_size_at_most_1 in Hs as [->|(stepName & args & ->)].
  { unfold extraArgs. by rewrite !sorted_keys_length, !range_empty. }
  rewrite !extraArgs_singleton, !(sorted_keys_listing _ args).
  destruct (validStepName stepName); cbn [negb]; [|done].
  case_decide as Ha; [done|]. by rewrite (range_at_most_1 o o' _ Ha).
Qed.

Lemma envOrRunOrMultiEnvStep_order_irrelevant o o' shells elem :
  envOrRunOrMultiEnvStep o shells elem = envOrRunOrMultiEnvStep o' shells elem.
Proof.
  unfold envOrRunOrMultiEnvStep. rewrite !(sorted_keys_listing _ elem).
  case_decide; [done|]. destruct (sort.Strings _) as [|stepName ?]; [done|].
  case_decide.
  { unfold envStep. by rewrite !sorted_keys_listing. }
  case_decide; [|done]. rewrite !runOrMultiEnvArgs_eq. cbv zeta.
  by rewrite !sorted_keys_listing.
Qed.

Lemma runOrMultiEnvStep_order_irrelevant o o' elem :
  runOrMultiEnvStep o elem = runOrMultiEnvStep o' elem.
Proof.
  unfold runOrMultiEnvStep. rewrite !sorted_keys_length, !(sorted_keys_listing _ elem).
  case_decide as Hs; [done|]. by rewrite (range_at_most_1 o o' _ Hs).
Qed.

(** X11: the verdict of [Validate], message included, is the same for every
    order in which [range] visits the maps of the step. *)
Lemma Validate_order_irrelevant o o' shells s :
  Validate o shells s = Validate o' shells s.
Proof.
  unfold Validate, validation.Validate, validation.By.
  destruct (Key s); [done|].
  rewrite (extraArgs_order_irrelevant o o'),
    (envOrRunOrMultiEnvStep_order_irrelevant o o'),
    (runOrMultiEnvStep_order_irrelevant o o'). done.
Qed.

(** ** The string-shorthand shape *)

Lemma Validate_StringVal_eq o shells s :
  Key s = None → Map s = ∅ → CommandMap s = ∅ →
  Validate o shells s =
    if decide (StringVal s = ∅) then Some (New "step element is empty")
    else runOrMultiEnvStep o (StringVal s).
Proof.
  intros Hk Hm Hc. unfold Validate. rewrite Hk, Hm, Hc, !map_size_empty.
  destruct (decide (0 < 0)%nat); [lia|].
  destruct (decide (StringVal s = ∅)) as [He|Hne].
  - rewrite He, map_size_empty. by case_decide; [lia|].
  - apply map_size_non_empty_iff in Hne. by case_decide; [|lia].
Qed.

Lemma runOrMultiEnvStep_many o (elem : gmap string string) :
  (1 < size elem)%nat →
  runOrMultiEnvStep o elem =
    Some (Errorf "step element can only contain a single key, found %d: %s"
            [Int_ (size elem); Str_ (strings.Join (sort.Strings (rangeKeys o elem)) ",")]).
Proof.
  intros Hs. unfold runOrMultiEnvStep. rewrite !sorted_keys_length. by case_decide.
Qed.

Lemma runOrMultiEnvStep_singleton o (stepName v : string) :
  runOrMultiEnvStep o {[stepName := v]} =
    if decide (stepName ∈ ["run"; "multienv"]) then None
    else Some (Errorf "%q is not a valid step type" [Str_ stepName]).
Proof.
  unfold runOrMultiEnvStep. rewrite sorted_keys_length, map_size_singleton.
  case_decide; [lia|]. rewrite range_singleton, for_range_singleton.
  unfold RunStepName, MultiEnvStepName.
  case_decide as Hin; rewrite !elem_of_cons, elem_of_nil in Hin;
    repeat (case_bool_decide; simpl); try done; tauto.
Qed.

(** X1: a step in the string-shorthand shape is accepted exactly when its
    map has one key and the key is [run] or [multienv], whatever the command
    string is; two keys or more are rejected with the keys listed sorted
    ascending, and any other single key is rejected as not a valid step
    type. *)
Theorem Validate_StringVal_rules o shells s :
  Key s = None → Map s = ∅ → CommandMap s = ∅ → StringVal s ≠ ∅ →
  (Validate o shells s = None ↔
   ∃ stepName v, StringVal s = {[stepName := v]} ∧ stepName ∈ ["run"; "multienv"]) ∧
  ((1 < size (StringVal s))%nat →
   ∃ ks, keys_ascending (StringVal s) ks ∧
         Validate o shells s =
           Some (Errorf "step element can only contain a single key, found %d: %s"
                   [Int_ (size (StringVal s)); Str_ (strings.Join ks ",")])) ∧
  (∀ stepName v, StringVal s = {[stepName := v]} → stepName ∉ ["run"; "multienv"] →
   Validate o shells s = Some (Errorf "%q is not a valid step type" [Str_ stepName])).
Proof.
  intros Hk Hm Hc Hne. rewrite (Validate_StringVal_eq _ _ _ Hk Hm Hc).
  rewrite (decide_False _ _ Hne). split; [|split].
  - split.
    + intros Hv. destruct (runOrMultiEnvStep_None_singleton _ _ Hne Hv) as (k & v & Hs).
      exists k, v. split; [done|]. rewrite Hs, runOrMultiEnvStep_singleton in Hv.
      by case_decide.
    + intros (k & v & -> & Hin). rewrite runOrMultiEnvStep_singleton. by case_decide.
  - intros Hs. eexists. split; [apply (sorted_keys_ascending o)|].
    by apply runOrMultiEnvStep_many.
  - intros k v -> Hnot. rewrite runOrMultiEnvStep_singleton. by case_decide.
Qed.

Lemma Validate_StringVal_rules_witness :
  Validate listing_order ["sh"]
    {| Key := None; CommandMap := ∅; Map := ∅; StringVal := {[ "plan" := "x" ]} |} =
  Some (Errorf "%q is not a valid step type" [Str_ "plan"]).
Proof.
  refine (proj2 (proj2 (Validate_StringVal_rules listing_order ["sh"]
    {| Key := None; CommandMap := ∅; Map := ∅; StringVal := {[ "plan" := "x" ]} |}
    _ _ _ _)) "plan" "x" _ _).
  - reflexivity.
  - reflexivity.
  - reflexivity.
  - apply singleton_ne_empty.
  - reflexivity.
  - intros Hin. apply list_elem_of_In in Hin. simpl in Hin.
    repeat destruct Hin as [Hin|Hin]; try discriminate Hin. exact Hin.
Defined.

(** ** The empty step *)








Lemma Validate_nothing_filled o shells s :
  Key s = None → Map s = ∅ → CommandMap s = ∅ → StringVal s = ∅ →
  Validate o shells s = Some (New "step element is empty").
Proof.
  intros Hk Hm Hc Hv. unfold Validate.
  rewrite Hk, Hm, Hc, Hv, !map_size_empty. by destruct (decide (0 < 0)%nat); [lia|].
Qed.


(** X3: [ToValid] panics exactly on the steps with no field filled in,
    whatever the order of [range], and then with the message of the source;
    these are the steps that [Validate] rejects as empty. *)
Theorem ToValid_panics_iff o shells s :
  ((∃ msg, ToValid o s = Panics msg) ↔
   Key s = None ∧ CommandMap s = ∅ ∧ Map s = ∅ ∧ StringVal s = ∅) ∧
  (∀ msg, ToValid o s = Panics msg →
   msg = "step was not valid. This is a bug!" ∧
   Validate o shells s = Some (New "step element is empty")).
Proof.
  assert (Hempty : Key s = None ∧ CommandMap s = ∅ ∧ Map s = ∅ ∧ StringVal s = ∅ →
                   ToValid o s = Panics "step was not valid. This is a bug!").
  { intros (Hk & Hc & Hm & Hv). unfold ToValid, ToValid_Map, ToValid_StringVal.
    rewrite Hk, Hc, Hm, Hv, !map_size_empty. by destruct (decide (0 < 0)%nat); [lia|]. }
  assert (Hpanic : ∀ msg, ToValid o s = Panics msg →
                   Key s = None ∧ CommandMap s = ∅ ∧ Map s = ∅ ∧ StringVal s = ∅).
  { intros msg Hp.
    destruct (Key s) as [key|] eqn:Hk.
    { destruct (ToValid_returns o s) as [step Hr]; [left; by rewrite Hk|congruence]. }
    destruct (decide (CommandMap s = ∅)) as [Hc|Hc]; cycle 1.
    { destruct (ToValid_returns o s) as [step Hr]; [by right; left|congruence]. }
    destruct (decide (Map s = ∅)) as [Hm|Hm]; cycle 1.
    { destruct (ToValid_returns o s) as [step Hr]; [by right; right; left|congruence]. }
    destruct (decide (StringVal s = ∅)) as [Hv|Hv]; cycle 1.
    { destruct (ToValid_returns o s) as [step Hr]; [by right; right; right|congruence]. }
    done. }
  split.
  - split; [intros [msg Hp]; by eapply Hpanic|]. intros H. eexists. by apply Hempty.
  - intros msg Hp. pose proof (Hpanic _ Hp) as Hall. rewrite (Hempty Hall) in Hp.
    split; [congruence|]. apply Validate_nothing_filled; tauto.
Qed.

Lemma ToValid_panics_iff_witness :
  Validate listing_order ["sh"] zeroStep = Some (New "step element is empty").
Proof.
  refine (proj2 (proj2 (ToValid_panics_iff listing_order ["sh"] zeroStep)
                   "step was not valid. This is a bug!" _)).
  vm_compute. reflexivity.
Defined.

(** ** The attribute-map shape: the top-level key *)

Lemma envOrRunOrMultiEnvStep_many o shells (elem : gmap string (gmap string string)) :
  (1 < size elem)%nat →
  envOrRunOrMultiEnvStep o shells elem =
    Some (Errorf "step element can only contain a single key, found %d: %s"
            [Int_ (size elem); Str_ (strings.Join (sort.Strings (rangeKeys o elem)) ",")]).
Proof.
  intros Hs. unfold envOrRunOrMultiEnvStep. rewrite !sorted_keys_length. by case_decide.
Qed.

(** X4: a step in the attribute-map shape can only be accepted when its map
    has one key and the key is [env], [run] or [multienv]; two keys or more
    are rejected with the keys listed sorted ascending, and a single key of
    any other name, a builtin name included, is rejected as not a valid step
    type. *)
Theorem Validate_CommandMap_key_rules o shells s :
  Key s = None → Map s = ∅ → CommandMap s ≠ ∅ →
  (Validate o shells s = None →
   ∃ stepName args, CommandMap s = {[stepName := args]} ∧
                    stepName ∈ ["env"; "run"; "multienv"]) ∧
  ((1 < size (CommandMap s))%nat →
   ∃ ks, keys_ascending (CommandMap s) ks ∧
         Validate o shells s =
           Some (Errorf "step element can only contain a single key, found %d: %s"
                   [Int_ (size (CommandMap s)); Str_ (strings.Join ks ",")])) ∧
  (∀ stepName args, CommandMap s = {[stepName := args]} →
   stepName ∉ ["env"; "run"; "multienv"] →
   Validate o shells s = Some (Errorf "%q is not a valid step type" [Str_ stepName])).
Proof.
  intros Hk Hm Hne. rewrite (Validate_CommandMap_eq _ _ _ Hk Hm Hne).
  assert (Hother : ∀ stepName args, stepName ∉ ["env"; "run"; "multienv"] →
    envOrRunOrMultiEnvStep o shells {[stepName := args]} =
      Some (Errorf "%q is not a valid step type" [Str_ stepName])).
  { intros stepName args Hnot. rewrite envOrRunOrMultiEnvStep_singleton.
    unfold EnvStepName, RunStepName, MultiEnvStepName.
    rewrite !elem_of_cons, elem_of_nil in Hnot.
    case_decide; [tauto|]. case_decide; [tauto|done]. }
  split; [|split].
  - intros Hv.
    destruct (envOrRunOrMultiEnvStep_None_singleton _ _ _ Hne Hv) as (stepName & args & Hs).
    exists stepName, args. split; [done|].
    destruct (decide (stepName ∈ ["env"; "run"; "multienv"])) as [|Hnot]; [done|].
    rewrite Hs, (Hother _ _ Hnot) in Hv. done.
  - intros Hs. eexists. split; [apply (sorted_keys_ascending o)|].
    by apply envOrRunOrMultiEnvStep_many.
  - intros stepName args -> Hnot. by apply Hother.
Qed.

Lemma Validate_CommandMap_key_rules_witness :
  Validate listing_order ["sh"]
    {| Key := None; CommandMap := {[ "plan" := {[ "extra_args" := "-lock=false" ]} ]};
       Map := ∅; StringVal := ∅ |} =
  Some (Errorf "%q is not a valid step type" [Str_ "plan"]).
Proof.
  refine (proj2 (proj2 (Validate_CommandMap_key_rules listing_order ["sh"]
    {| Key := None; CommandMap := {[ "plan" := {[ "extra_args" := "-lock=false" ]} ]};
       Map := ∅; StringVal := ∅ |} _ _ _)) "plan" {[ "extra_args" := "-lock=false" ]} _ _).
  - reflexivity.
  - reflexivity.
  - apply singleton_ne_empty.
  - reflexivity.
  - intros Hin. apply list_elem_of_In in Hin. simpl in Hin.
    repeat destruct Hin as [Hin|Hin]; try discriminate Hin. exact Hin.
Defined.

(** ** The normaliser on the other shapes *)

Lemma envStep_None o (args : gmap string string) :
  envStep o args = None →
  (∀ k, is_Some (args !! k) → k ∈ ["name"; "command"; "value"; "shell"]) ∧
  is_Some (args !! "name").
Proof.
  unfold envStep. destruct (sorted_keys_ascending o args) as (_ & _ & Hkeys).
  set (ks := sort.Strings (rangeKeys o args)) in *.
  destruct (Forall_or_first (λ k, k ∈ ["name"; "command"; "value"; "shell"]) ks)
    as [Hok|(l1 & k & l2 & Hsplit & Hl1 & Hk)].
  - rewrite (envKeysLoop_allowed _ _ Hok). simpl.
    case_bool_decide as Hn; simpl; [|done]. intros _. split.
    + intros k Hk%Hkeys. rewrite Forall_forall in Hok. by apply Hok.
    + by apply Hkeys.
  - by rewrite Hsplit, (envKeysLoop_first_other _ _ _ _ Hl1 Hk).
Qed.

(** X5: for an accepted step in the attribute-map shape with the sole key
    [env], [ToValid] names the step [env], takes the variable's name from
    [name], and its value, command and shell from [value], [command] and
    [shell] where present, the empty string otherwise; the output mode and
    the extra arguments stay empty. *)
Theorem ToValid_env o shells args sv :
  let s := {| Key := None; CommandMap := {[ "env" := args ]}; Map := ∅; StringVal := sv |} in
  Validate o shells s = None →
  ∃ name, args !! "name" = Some name ∧
    ToValid o s =
      Returns {| valid.StepName := "env";
                 valid.ExtraArgs := [];
                 valid.RunCommand := default "" (args !! "command");
                 valid.EnvVarName := name;
                 valid.EnvVarValue := default "" (args !! "value");
                 valid.Output := "";
                 valid.RunShell := default "" (args !! "shell") |}.
Proof.
  intros s Hv. subst s.
  rewrite Validate_CommandMap_singleton, envOrRunOrMultiEnvStep_singleton in Hv.
  rewrite decide_True in Hv by done.
  apply envStep_None in Hv as [Hall [name Hn]]. exists name. split; [done|].
  rewrite (ToValid_CommandMap_singleton _ _ "env" args) by done.
  f_equal. unfold commandMapStep, index, NameArgKey, CommandArgKey, ValueArgKey,
    OutputArgKey, ShellArgKey, RunStepName. simpl.
  assert (args !! "output" = None) as ->.
  { apply eq_None_not_Some. intros H%Hall.
    rewrite !elem_of_cons, elem_of_nil in H. intuition discriminate. }
  by rewrite Hn.
Qed.

Lemma ToValid_env_witness :
  ToValid listing_order
    {| Key := None;
       CommandMap := {[ "env" := {[ "name" := "test_value"; "value" := "value" ]} ]};
       Map := ∅; StringVal := ∅ |} =
  Returns {| valid.StepName := "env"; valid.ExtraArgs := []; valid.RunCommand := "";
             valid.EnvVarName := "test_value"; valid.EnvVarValue := "value";
             valid.Output := ""; valid.RunShell := "" |}.
Proof.
  destruct (ToValid_env listing_order ["sh"]
              {[ "name" := "test_value"; "value" := "value" ]} ∅) as (name & Hn & Hv).
  - vm_compute. reflexivity.
  - vm_compute in Hn. injection Hn as <-. exact Hv.
Defined.

(** X6: for an accepted step in the extra-args shape whose attribute map is
    empty, [ToValid] names the step after the sole key, one of the nine
    names of [validStepName], and takes the extra arguments from
    [extra_args], the empty list when the key is absent; every other field
    stays empty. *)
Theorem ToValid_extra_args o shells s :
  Key s = None → CommandMap s = ∅ → Map s ≠ ∅ →
  Validate o shells s = None →
  ∃ stepName args,
    Map s = {[stepName := args]} ∧ validStepName stepName = true ∧
    ToValid o s =
      Returns {| valid.StepName := stepName;
                 valid.ExtraArgs := default [] (args !! "extra_args");
                 valid.RunCommand := ""; valid.EnvVarName := ""; valid.EnvVarValue := "";
                 valid.Output := ""; valid.RunShell := "" |}.
Proof.
  intros Hk Hc Hne Hv. rewrite (Validate_Map_eq _ _ _ Hk Hne) in Hv.
  destruct (extraArgs_None_singleton _ _ Hne Hv) as (stepName & args & Hm).
  exists stepName, args. rewrite Hm, extraArgs_singleton in Hv.
  split_and!; [done| |by apply ToValid_Map_singleton].
  by destruct (validStepName stepName).
Qed.

Lemma ToValid_extra_args_witness :
  ∃ stepName args,
    ({[ "init" := {[ "extra_args" := ["-var-file=staging.tfvars"] ]} ]}
       : gmap string (gmap string (list string))) = {[stepName := args]} ∧
    validStepName stepName = true ∧
    ToValid listing_order
      {| Key := None; CommandMap := ∅;
         Map := {[ "init" := {[ "extra_args" := ["-var-file=staging.tfvars"] ]} ]};
         StringVal := ∅ |} =
    Returns {| valid.StepName := stepName;
               valid.ExtraArgs := default [] (args !! "extra_args");
               valid.RunCommand := ""; valid.EnvVarName := ""; valid.EnvVarValue := "";
               valid.Output := ""; valid.RunShell := "" |}.
Proof.
  assert (Hv : Validate listing_order ["sh"]
    {| Key := None; CommandMap := ∅;
       Map := {[ "init" := {[ "extra_args" := ["-var-file=staging.tfvars"] ]} ]};
       StringVal := ∅ |} = None) by (vm_compute; reflexivity).
  exact (ToValid_extra_args listing_order ["sh"]
           {| Key := None; CommandMap := ∅;
              Map := {[ "init" := {[ "extra_args" := ["-var-file=staging.tfvars"] ]} ]};
              StringVal := ∅ |} eq_refl eq_refl (singleton_ne_empty _ _) Hv).
Defined.

(** X7: for an accepted step in the string-shorthand shape, with the two
    other maps empty, [ToValid] names the step after the sole key, [run] or
    [multienv], and takes the command from its string; the output mode, for
    [run] too, and every other field stay empty. *)
Theorem ToValid_shorthand o shells s :
  Key s = None → CommandMap s = ∅ → Map s = ∅ → StringVal s ≠ ∅ →
  Validate o shells s = None →
  ∃ stepName v,
    StringVal s = {[stepName := v]} ∧ stepName ∈ ["run"; "multienv"] ∧
    ToValid o s =
      Returns {| valid.StepName := stepName; valid.ExtraArgs := [];
                 valid.RunCommand := v; valid.EnvVarName := ""; valid.EnvVarValue := "";
                 valid.Output := ""; valid.RunShell := "" |}.
Proof.
  intros Hk Hc Hm Hne Hv. rewrite (Validate_StringVal_eq _ _ _ Hk Hm Hc) in Hv.
  rewrite (decide_False _ _ Hne) in Hv.
  destruct (runOrMultiEnvStep_None_singleton _ _ Hne Hv) as (stepName & v & Hs).
  exists stepName, v. rewrite Hs, runOrMultiEnvStep_singleton in Hv.
  split_and!; [done|by case_decide|by apply ToValid_StringVal_singleton].
Qed.

Lemma ToValid_shorthand_witness :
  ∃ stepName v,
    ({[ "run" := "my custom command" ]} : gmap string string) = {[stepName := v]} ∧
    stepName ∈ ["run"; "multienv"] ∧
    ToValid listing_order
      {| Key := None; CommandMap := ∅; Map := ∅;
         StringVal := {[ "run" := "my custom command" ]} |} =
    Returns {| valid.StepName := stepName; valid.ExtraArgs := [];
               valid.RunCommand := v; valid.EnvVarName := ""; valid.EnvVarValue := "";
               valid.Output := ""; valid.RunShell := "" |}.
Proof.
  assert (Hv : Validate listing_order ["sh"]
    {| Key := None; CommandMap := ∅; Map := ∅;
       StringVal := {[ "run" := "my custom command" ]} |} = None)
    by (vm_compute; reflexivity).
  exact (ToValid_shorthand listing_order ["sh"]
           {| Key := None; CommandMap := ∅; Map := ∅;
              StringVal := {[ "run" := "my custom command" ]} |}
           eq_refl eq_refl eq_refl (singleton_ne_empty _ _) Hv).
Defined.

(** ** From the decoder to the normaliser *)

Lemma unmarshalGeneric_fresh_cases {E : Type} (unmarshal : ∀ t : target, attempt E (Go t))
    (s : Step) :
  unmarshalGeneric unmarshal zeroStep = (s, None) →
  (∃ v, s = {| Key := Some v; CommandMap := ∅; Map := ∅; StringVal := ∅ |}) ∨
  (∃ v, s = {| Key := None; CommandMap := ∅; Map := v; StringVal := ∅ |}) ∨
  (∃ v, s = {| Key := None; CommandMap := v; Map := ∅; StringVal := ∅ |}) ∨
  (∃ v, s = {| Key := None; CommandMap := ∅; Map := ∅; StringVal := v |}).
Proof.
  unfold unmarshalGeneric, zeroStep; simpl.
  destruct (unmarshal string_) as [v1|e1]; [intros [= <-]; eauto|].
  destruct (unmarshal map_map_slice) as [v2|e2]; [intros [= <-]; eauto|].
  destruct (unmarshal map_map_string) as [v3|e3]; [intros [= <-]; eauto|].
  destruct (unmarshal map_string) as [v4|e4]; [intros [= <-]; eauto 6|done].
Qed.

(** X8: a step that [unmarshalGeneric] reads into a fresh receiver has at
    most one field filled in, and exactly one when [Validate] accepts it. *)
Theorem unmarshalGeneric_fresh_populated {E : Type}
    (unmarshal : ∀ t : target, attempt E (Go t)) o shells (s : Step) :
  unmarshalGeneric unmarshal zeroStep = (s, None) →
  (populated s ≤ 1)%nat ∧ (Validate o shells s = None → populated s = 1%nat).
Proof.
  intros Hdec.
  assert (Hzero : Validate o shells zeroStep ≠ None).
  { by rewrite Validate_nothing_filled. }
  apply unmarshalGeneric_fresh_cases in Hdec as [[v ->]|[[v ->]|[[v ->]|[v ->]]]];
    unfold populated; simpl.
  - rewrite !decide_True by done. split; [lia|done].
  - rewrite !(decide_True (P:=(∅ = ∅))) by done.
    destruct (decide (v = ∅)) as [->|]; [|split; [lia|done]]. split; [lia|done].
  - rewrite !(decide_True (P:=(∅ = ∅))) by done.
    destruct (decide (v = ∅)) as [->|]; [|split; [lia|done]]. split; [lia|done].
  - rewrite !(decide_True (P:=(∅ = ∅))) by done.
    destruct (decide (v = ∅)) as [->|]; [|split; [lia|done]]. split; [lia|done].
Qed.

Lemma unmarshalGeneric_fresh_populated_witness :
  populated {| Key := None; CommandMap := ∅; Map := ∅;
               StringVal := {[ "run" := "my custom command" ]} |} = 1%nat.
Proof.
  refine (proj2 (unmarshalGeneric_fresh_populated
    (unmarshal_node (Mapping {[ "run" := Str "my custom command" ]}))
    listing_order ["sh"]
    {| Key := None; CommandMap := ∅; Map := ∅;
       StringVal := {[ "run" := "my custom command" ]} |} _) _).
  - vm_compute. reflexivity.
  - vm_compute. reflexivity.
Defined.

Lemma validStepName_stepNames (stepName : string) :
  validStepName stepName = true → stepName ∈ stepNames.
Proof.
  intros H%validStepName_true. unfold stepNames, InitStepName, PlanStepName, ApplyStepName,
    EnvStepName, MultiEnvStepName, ShowStepName, PolicyCheckStepName, ImportStepName,
    StateRmStepName, RunStepName.
  rewrite !elem_of_cons, elem_of_nil in *. tauto.
Qed.

(** The name under which an accepted step is returned when [Validate] and
    [ToValid] look at the same field. *)
Lemma ToValid_accepted_cases o shells s :
  Validate o shells s = None →
  Key s ≠ None ∨ Map s = ∅ ∨ CommandMap s = ∅ →
  ∃ step, (∀ o', ToValid o' s = Returns step) ∧ valid.StepName step ∈ stepNames.
Proof.
  intros Hv Hshape. pose proof Hv as Hv'.
  apply Validate_None_cases in Hv'
    as [[key Hk]|[(Hk & k & v & Hm)|[(Hk & Hm & k & v & Hc)|(Hk & Hm & Hc & k & v & Hsv)]]].
  - eexists. split; [intros o'; by apply ToValid_Key|]. simpl.
    rewrite (Validate_Key_eq _ _ _ _ Hk) in Hv. unfold validStep in Hv.
    apply validStepName_stepNames. by destruct (validStepName key).
  - destruct Hshape as [?|[Hm'|Hc]]; [done| |].
    { rewrite Hm in Hm'. by apply singleton_ne_empty in Hm'. }
    eexists. split; [intros o'; by apply ToValid_Map_singleton|]. simpl.
    rewrite Validate_Map_eq in Hv; [|done|rewrite Hm; apply singleton_ne_empty].
    rewrite Hm, extraArgs_singleton in Hv.
    apply validStepName_stepNames. by destruct (validStepName k).
  - eexists. split; [intros o'; by apply ToValid_CommandMap_singleton|].
    rewrite commandMapStep_StepName.
    rewrite Validate_CommandMap_eq in Hv; [|done..|rewrite Hc; apply singleton_ne_empty].
    rewrite Hc, envOrRunOrMultiEnvStep_singleton in Hv.
    unfold stepNames. rewrite !elem_of_cons.
    case_decide; [tauto|]. case_decide; [tauto|done].
  - eexists. split; [intros o'; by apply ToValid_StringVal_singleton|]. simpl.
    rewrite (Validate_StringVal_eq _ _ _ Hk Hm Hc), Hsv in Hv.
    rewrite decide_False in Hv by apply singleton_ne_empty.
    rewrite runOrMultiEnvStep_singleton in Hv.
    unfold stepNames, RunStepName, MultiEnvStepName. rewrite !elem_of_cons.
    case_decide as Hin; [|done]. rewrite !elem_of_cons, elem_of_nil in Hin. tauto.
Qed.

Lemma populated_at_most_1 (s : Step) :
  (populated s ≤ 1)%nat → Key s ≠ None ∨ Map s = ∅ ∨ CommandMap s = ∅.
Proof.
  unfold populated. intros Hp.
  destruct (Key s); [by left|]. destruct (decide (Map s = ∅)); [by right; left|].
  destruct (decide (CommandMap s = ∅)); [by right; right|]. case_decide; lia.
Qed.

(** C3: on every step with at most one field filled in, as a step is by
    its type's description and as the decoder fills it, that [Validate]
    accepts, [ToValid] returns a step, one and the same whatever the order
    in which [range] visits the maps, and never reaches its panic. *)
Theorem ToValid_total_deterministic o shells s :
  (populated s ≤ 1)%nat →
  Validate o shells s = None →
  ∃ step, (∀ o', ToValid o' s = Returns step) ∧
          (∀ o' msg, ToValid o' s ≠ Panics msg).
Proof.
  intros Hp%populated_at_most_1 Hv.
  destruct (ToValid_accepted_cases _ _ _ Hv Hp) as (step & Hstep & _).
  exists step. split; [done|]. intros o' msg. by rewrite Hstep.
Qed.

Lemma ToValid_total_deterministic_witness :
  ∃ step,
    (∀ o', ToValid o'
       {| Key := None; CommandMap := ∅;
          Map := {[ "init" := {[ "extra_args" := ["-var-file=staging.tfvars"] ]} ]};
          StringVal := ∅ |} = Returns step) ∧
    (∀ o' msg, ToValid o'
       {| Key := None; CommandMap := ∅;
          Map := {[ "init" := {[ "extra_args" := ["-var-file=staging.tfvars"] ]} ]};
          StringVal := ∅ |} ≠ Panics msg).
Proof.
  apply (ToValid_total_deterministic listing_order ["sh"]
    {| Key := None; CommandMap := ∅;
       Map := {[ "init" := {[ "extra_args" := ["-var-file=staging.tfvars"] ]} ]};
       StringVal := ∅ |}).
  - vm_compute. lia.
  - vm_compute. reflexivity.
Defined.

(** X9: when [Validate] accepts a step whose [Key] is set, or whose
    extra-args map or attribute map is empty, every step that [ToValid]
    returns for it carries one of the ten step names of the package. *)
Theorem ToValid_step_name o shells s :
  Validate o shells s = None →
  Key s ≠ None ∨ Map s = ∅ ∨ CommandMap s = ∅ →
  ∀ o' step, ToValid o' s = Returns step → valid.StepName step ∈ stepNames.
Proof.
  intros Hv Hshape o' step Hr.
  destruct (ToValid_accepted_cases _ _ _ Hv Hshape) as (step' & Hall & Hin).
  rewrite Hall in Hr. by injection Hr as <-.
Qed.

Lemma ToValid_step_name_witness : "plan" ∈ stepNames.
Proof.
  refine (ToValid_step_name listing_order ["sh"]
    {| Key := Some "plan"; CommandMap := ∅; Map := ∅; StringVal := ∅ |} _ _
    reverse_order
    {| valid.StepName := "plan"; valid.ExtraArgs := []; valid.RunCommand := "";
       valid.EnvVarName := ""; valid.EnvVarValue := ""; valid.Output := "";
       valid.RunShell := "" |} _).
  - vm_compute. reflexivity.
  - left. discriminate.
  - reflexivity.
Defined.

(** X10: a step read into a fresh receiver and accepted by [Validate] is
    normalised to one and the same step whatever the order of [range], and
    that step carries one of the ten step names. *)
Theorem decode_validate_normalise {E : Type}
    (unmarshal : ∀ t : target, attempt E (Go t)) o shells (s : Step) :
  unmarshalGeneric unmarshal zeroStep = (s, None) →
  Validate o shells s = None →
  ∃ step, (∀ o', ToValid o' s = Returns step) ∧ valid.StepName step ∈ stepNames.
Proof.
  intros Hdec Hv. apply (ToValid_accepted_cases _ _ _ Hv).
  apply unmarshalGeneric_fresh_cases in Hdec as [[v ->]|[[v ->]|[[v ->]|[v ->]]]]; simpl.
  - by left.
  - by right; right.
  - by right; left.
  - by right; left.
Qed.

Lemma decode_validate_normalise_witness :
  ∃ step,
    (∀ o', ToValid o'
       {| Key := None; CommandMap := {[ "env" := {[ "name" := "k"; "command" := "exec" ]} ]};
          Map := ∅; StringVal := ∅ |} = Returns step) ∧
    valid.StepName step ∈ stepNames.
Proof.
  refine (decode_validate_normalise
    (unmarshal_node (Mapping {[ "env" := Mapping {[ "name" := Str "k";
                                                    "command" := Str "exec" ]} ]}))
    listing_order ["sh"]
    {| Key := None; CommandMap := {[ "env" := {[ "name" := "k"; "command" := "exec" ]} ]};
       Map := ∅; StringVal := ∅ |} _ _).
  - vm_compute. reflexivity.
  - vm_compute. reflexivity.
Defined.

(** ** Writing a step and reading it back *)

Lemma as_slice_of_slice (l : list string) : as_slice (of_slice l) = Some l.
Proof. unfold as_slice, of_slice. by apply mapM_fmap_Some. Qed.

Lemma as_map_of_map {A : Type} (f : node → option A) (g : A → node) (m : gmap string A) :
  (∀ a, f (g a) = Some a) → as_map f (of_map g m) = Some m.
Proof.
  intros Hfg. unfold as_map, of_map. rewrite decide_True.
  - f_equal. apply map_eq. intros i. rewrite lookup_omap, lookup_fmap.
    destruct (m !! i) as [a|]; simpl; [apply Hfg|done].
  - intros i y. rewrite lookup_fmap. destruct (m !! i) as [a|]; simpl; [|done].
    intros [= <-]. rewrite Hfg. by eexists.
Qed.

Lemma as_map_of_map_None {A B : Type} (f : node → option A) (g : B → node)
    (m : gmap string B) (k : string) (b : B) :
  m !! k = Some b → f (g b) = None → as_map f (of_map g m) = None.
Proof.
  intros Hk Hf. unfold as_map, of_map. rewrite decide_False; [done|].
  intros Hall. destruct (Hall k (g b)) as [a Ha].
  - by rewrite lookup_fmap, Hk.
  - congruence.
Qed.

Lemma accepted_args_nonempty o shells (stepName : string) (args : gmap string string) :
  envOrRunOrMultiEnvStep o shells {[stepName := args]} = None →
  ∃ k v, args !! k = Some v.
Proof.
  rewrite envOrRunOrMultiEnvStep_singleton. case_decide as He.
  { intros [_ [v Hv]]%envStep_None. eauto. }
  case_decide as Hr; [|done].
  assert (stepName ∈ ["run"; "multienv"]) as Hn.
  { unfold RunStepName, MultiEnvStepName in Hr. rewrite !elem_of_cons. tauto. }
  intros [[v Hv] _]%(runOrMultiEnvArgs_None _ _ _ _ Hn). eauto.
Qed.

Lemma as_string_of_map {A : Type} (g : A → node) (m : gmap string A) :
  as_string (of_map g m) = None.
Proof. reflexivity. Qed.

Lemma marshalGeneric_one_field (s : Step) :
  populated s = 1%nat →
  (∃ key, s = {| Key := Some key; CommandMap := ∅; Map := ∅; StringVal := ∅ |} ∧
          (marshalGeneric s).1 = of_Key key) ∨
  (∃ m, s = {| Key := None; CommandMap := ∅; Map := m; StringVal := ∅ |} ∧ m ≠ ∅ ∧
        (marshalGeneric s).1 = of_Map m) ∨
  (∃ cm, s = {| Key := None; CommandMap := cm; Map := ∅; StringVal := ∅ |} ∧ cm ≠ ∅ ∧
         (marshalGeneric s).1 = of_CommandMap cm) ∨
  (∃ sv, s = {| Key := None; CommandMap := ∅; Map := ∅; StringVal := sv |} ∧ sv ≠ ∅ ∧
         (marshalGeneric s).1 = of_StringVal sv).
Proof.
  destruct s as [key cm m sv]. unfold populated, marshalGeneric. simpl. intros Hp.
  destruct (decide (sv = ∅)) as [->|Hsv].
  - rewrite map_size_empty. rewrite decide_False by lia.
    destruct (decide (m = ∅)) as [->|Hm].
    + rewrite map_size_empty. rewrite decide_False by lia.
      destruct (decide (cm = ∅)) as [->|Hcm].
      * rewrite map_size_empty. rewrite decide_False by lia.
        destruct key as [key|]; [|lia]. left. by exists key.
      * destruct key; [lia|]. right. right. left. exists cm.
        by rewrite decide_True by (by apply map_size_non_empty_iff).
    + destruct key; [lia|]. destruct (decide (cm = ∅)) as [->|]; [|lia].
      right. left. exists m.
      by rewrite decide_True by (by apply map_size_non_empty_iff).
  - destruct key; [lia|]. destruct (decide (m = ∅)) as [->|]; [|lia].
    destruct (decide (cm = ∅)) as [->|]; [|lia].
    right. right. right. exists sv.
    by rewrite decide_True by (by apply map_size_non_empty_iff).
Qed.

(** X12: a step with exactly one field filled in that [Validate] accepts is
    restored by writing it with [marshalGeneric] and reading the tree back
    into a fresh receiver: the four reads of [unmarshalGeneric] settle on the
    field that was written. *)
Theorem marshal_unmarshal_accepted o shells s :
  populated s = 1%nat →
  Validate o shells s = None →
  unmarshalGeneric (unmarshal_node (node_of (marshalGeneric s).1)) zeroStep = (s, None).
Proof.
  intros Hp Hv.
  destruct (marshalGeneric_one_field s Hp)
    as [(key & -> & ->)|[(m & -> & Hm & ->)|[(cm & -> & Hcm & ->)|(sv & -> & Hsv & ->)]]];
    unfold unmarshalGeneric, unmarshal_node; cbn [read node_of].
  - reflexivity.
  - rewrite as_string_of_map. cbv beta iota.
    rewrite as_map_of_map; [done|]. intros a. apply as_map_of_map, as_slice_of_slice.
  - rewrite Validate_CommandMap_eq in Hv by done. cbn [CommandMap] in Hv.
    destruct (envOrRunOrMultiEnvStep_None_singleton _ _ _ Hcm Hv)
      as (stepName & args & ->).
    destruct (accepted_args_nonempty _ _ _ _ Hv) as (k & v & Hk).
    rewrite as_string_of_map. cbv beta iota.
    rewrite (as_map_of_map_None (as_map as_slice) (of_map Str) _ stepName args);
      [|apply lookup_singleton_eq|by apply (as_map_of_map_None as_slice Str _ k v)].
    cbv beta iota. rewrite as_map_of_map; [done|]. intros a. by apply as_map_of_map.
  - destruct (map_choose sv Hsv) as (k & v & Hk).
    rewrite as_string_of_map. cbv beta iota.
    rewrite (as_map_of_map_None (as_map as_slice) Str _ k v) by done. cbv beta iota.
    rewrite (as_map_of_map_None (as_map as_string) Str _ k v) by done. cbv beta iota.
    by rewrite as_map_of_map.
Qed.

Lemma marshal_unmarshal_accepted_witness :
  let s := {| Key := None;
              CommandMap := {[ "run" := {[ "command" := "my custom command";
                                           "output" := "hide" ]} ]};
              Map := ∅; StringVal := ∅ |} in
  unmarshalGeneric (unmarshal_node (node_of (marshalGeneric s).1)) zeroStep = (s, None).
Proof.
  intros s. apply (marshal_unmarshal_accepted listing_order ["sh"] s).
  - vm_compute. reflexivity.
  - vm_compute. reflexivity.
Defined.

(** X13: an attribute map with at least one key whose values are all empty
    is not restored: written with [marshalGeneric] and read back, it comes
    out as an extra-args map with the same keys, because the read at the
    extra-args type is tried first and succeeds. *)
Theorem empty_attributes_read_as_extra_args (cm : gmap string (gmap string string)) :
  cm ≠ ∅ → (∀ k args, cm !! k = Some args → args = ∅) →
  unmarshalGeneric
    (unmarshal_node
       (node_of (marshalGeneric
                   {| Key := None; CommandMap := cm; Map := ∅; StringVal := ∅ |}).1))
    zeroStep =
  ({| Key := None; CommandMap := ∅; Map := (λ _ : gmap string string, ∅ : gmap string (list string)) <$> cm; StringVal := ∅ |}, None).
Proof.
  intros Hne Hempty.
  destruct (marshalGeneric_one_field
              {| Key := None; CommandMap := cm; Map := ∅; StringVal := ∅ |})
    as [(key & [=] & _)|[(m & [= <- <-] & Hm & _)|[(cm' & [= <-] & _ & Hmar)|(sv & [= <- <-] & Hsv & _)]]];
    try done.
  { unfold populated. simpl. rewrite !decide_True by done. by rewrite decide_False. }
  rewrite Hmar. unfold unmarshalGeneric, unmarshal_node; cbn [read node_of].
  rewrite as_string_of_map. cbv beta iota.
  assert (as_map (as_map as_slice) (of_map (of_map Str) cm) = Some ((λ _ : gmap string string, ∅ : gmap string (list string)) <$> cm)) as ->;
    [|done].
  unfold as_map at 1, of_map at 1. rewrite decide_True.
  - f_equal. apply map_eq. intros i. rewrite lookup_omap, !lookup_fmap.
    destruct (cm !! i) as [args|] eqn:Hi; simpl; [|done].
    rewrite (Hempty _ _ Hi). unfold of_map. rewrite fmap_empty. simpl.
    rewrite decide_True by apply map_Forall_empty. by rewrite omap_empty.
  - intros i y. rewrite lookup_fmap.
    destruct (cm !! i) as [args|] eqn:Hi; simpl; [|done]. intros [= <-].
    rewrite (Hempty _ _ Hi). unfold of_map. rewrite fmap_empty. simpl.
    rewrite decide_True by apply map_Forall_empty. by eexists.
Qed.

Lemma empty_attributes_read_as_extra_args_witness :
  unmarshalGeneric
    (unmarshal_node
       (node_of (marshalGeneric
                   {| Key := None; CommandMap := {[ "run" := ∅ ]}; Map := ∅;
                      StringVal := ∅ |}).1))
    zeroStep =
  ({| Key := None; CommandMap := ∅; Map := (λ _ : gmap string string, ∅ : gmap string (list string)) <$> {[ "run" := ∅ ]};
      StringVal := ∅ |}, None).
Proof.
  apply (empty_attributes_read_as_extra_args {[ "run" := ∅ ]}).
  - apply singleton_ne_empty.
  - intros k args Hk. apply lookup_singleton_Some in Hk as [_ <-]. reflexivity.
Defined.

(** ** The two ways of writing a command step *)

(** X14: a command written as [run: c] or [multienv: c] and the same
    command written as an attribute map holding only [command] are both
    accepted; for [multienv] they are normalised to the same step, for [run]
    to steps that differ in the output mode only, empty for the shorthand
    and [show] for the attribute map. *)
Theorem shorthand_and_attribute_form o shells (command : string) :
  let short stepName :=
    {| Key := None; CommandMap := ∅; Map := ∅; StringVal := {[stepName := command]} |} in
  let long stepName :=
    {| Key := None; CommandMap := {[stepName := {[ "command" := command ]}]};
       Map := ∅; StringVal := ∅ |} in
  let step stepName output :=
    {| valid.StepName := stepName; valid.ExtraArgs := []; valid.RunCommand := command;
       valid.EnvVarName := ""; valid.EnvVarValue := ""; valid.Output := output;
       valid.RunShell := "" |} in
  (∀ stepName, stepName ∈ ["run"; "multienv"] →
     Validate o shells (short stepName) = None ∧ Validate o shells (long stepName) = None) ∧
  ToValid o (short "multienv") = Returns (step "multienv" "") ∧
  ToValid o (long "multienv") = Returns (step "multienv" "") ∧
  ToValid o (short "run") = Returns (step "run" "") ∧
  ToValid o (long "run") = Returns (step "run" "show").
Proof.
  intros short long step. split_and!.
  - intros stepName Hn. split.
    + unfold short. rewrite Validate_StringVal_eq by done. simpl.
      rewrite decide_False by apply singleton_ne_empty.
      rewrite runOrMultiEnvStep_singleton. by case_decide.
    + unfold long. rewrite (Validate_run_multienv_eq _ _ _ _ _ Hn).
      apply (runOrMultiEnvArgs_None _ _ _ _ Hn). split_and!.
      * rewrite lookup_singleton_eq. by eexists.
      * intros v. by rewrite lookup_singleton_ne.
      * intros v. by rewrite lookup_singleton_ne.
      * intros k [v [-> _]%lookup_singleton_Some]. rewrite !elem_of_cons. tauto.
  - by apply ToValid_StringVal_singleton.
  - unfold long. rewrite (ToValid_CommandMap_singleton _ _ "multienv" {[ "command" := command ]})
      by done. reflexivity.
  - by apply ToValid_StringVal_singleton.
  - unfold long. rewrite (ToValid_CommandMap_singleton _ _ "run" {[ "command" := command ]})
      by done. reflexivity.
Qed.

Lemma shorthand_and_attribute_form_witness :
  Validate listing_order ["sh"]
    {| Key := None; CommandMap := ∅; Map := ∅; StringVal := {[ "run" := "echo" ]} |} = None ∧
  Validate listing_order ["sh"]
    {| Key := None; CommandMap := {[ "run" := {[ "command" := "echo" ]} ]};
       Map := ∅; StringVal := ∅ |} = None.
Proof.
  refine (proj1 (shorthand_and_attribute_form listing_order ["sh"] "echo") "run" _).
  apply list_elem_of_In. simpl. tauto.
Defined.

(** ** What the [env] rules look at *)

Lemma sorted_keys_dom o o' {V W : Type} (m : gmap string V) (m' : gmap string W) :
  dom m = dom m' → sort.Strings (rangeKeys o m) = sort.Strings (rangeKeys o' m').
Proof.
  intros Hdom.
  destruct (sorted_keys_ascending o m) as (Hs & Hd & Hk).
  destruct (sorted_keys_ascending o' m') as (Hs' & Hd' & Hk').
  apply (StronglySorted_unique String.le); [done..|].
  apply NoDup_Permutation; [done..|]. intros k.
  by rewrite Hk, Hk', <- !elem_of_dom, Hdom.
Qed.

(** X15: for a step in the attribute-map shape with the sole key [env],
    the verdict of [Validate], message included, depends on the set of
    attribute keys only: not on any value, the shell's included, nor on the
    allow-list of shells, nor on the order of [range]. *)
Theorem Validate_env_keys_only o o' shells shells' (args args' sv sv' : gmap string string) :
  dom args = dom args' →
  Validate o shells
    {| Key := None; CommandMap := {[ "env" := args ]}; Map := ∅; StringVal := sv |} =
  Validate o' shells'
    {| Key := None; CommandMap := {[ "env" := args' ]}; Map := ∅; StringVal := sv' |}.
Proof.
  intros Hdom. rewrite !Validate_CommandMap_singleton, !envOrRunOrMultiEnvStep_singleton.
  rewrite !decide_True by done. unfold envStep.
  by rewrite (sorted_keys_dom o o' args args' Hdom).
Qed.

Lemma Validate_env_keys_only_witness :
  Validate listing_order ["sh"]
    {| Key := None; CommandMap := {[ "env" := {[ "name" := "a"; "shell" := "bash" ]} ]};
       Map := ∅; StringVal := ∅ |} =
  Validate reverse_order []
    {| Key := None; CommandMap := {[ "env" := {[ "name" := "b"; "shell" := "fish" ]} ]};
       Map := ∅; StringVal := ∅ |}.
Proof.
  apply (Validate_env_keys_only listing_order reverse_order ["sh"] []
           {[ "name" := "a"; "shell" := "bash" ]} {[ "name" := "b"; "shell" := "fish" ]}).
  by rewrite !dom_insert_L, !dom_singleton_L.
Defined.

(** ** The JSON entry point *)

(** X16: [MarshalJSON] returns what [json.Marshal] returns for the value
    that [marshalGeneric] picks; its early return on an error of
    [marshalGeneric] is never taken, and a step with nothing filled in is
    handed to [json.Marshal] as nil. *)
Theorem MarshalJSON_json_Marshal (json_Marshal : iface → string * option error) (s : Step) :
  MarshalJSON json_Marshal s = json_Marshal (marshalGeneric s).1 ∧
  (populated s = 0%nat → MarshalJSON json_Marshal s = json_Marshal nil_).
Proof.
  assert (Herr : (marshalGeneric s).2 = None).
  { unfold marshalGeneric. repeat case_decide; try done. by destruct (Key s). }
  assert (Heq : MarshalJSON json_Marshal s = json_Marshal (marshalGeneric s).1).
  { unfold MarshalJSON. destruct (marshalGeneric s) as [out err]. simpl in *. by subst err. }
  split; [done|]. intros Hp. rewrite Heq. f_equal.
  destruct s as [key cm m sv]. unfold populated in Hp. simpl in Hp.
  destruct key; [lia|]. repeat case_decide; try lia. subst.
  unfold marshalGeneric. simpl. rewrite !map_size_empty. by rewrite decide_False by lia.
Qed.

Lemma MarshalJSON_json_Marshal_witness :
  MarshalJSON (λ _, ("null", None)) zeroStep = ("null", None).
Proof.
  refine (proj2 (MarshalJSON_json_Marshal (λ _, ("null", None)) zeroStep) _).
  reflexivity.
Defined.
